(** * resumableUploadForGoogleAPIs.js: a model of [resumableUpload]

    The function opens an upload session with a POST, reads the content as a
    stream of fragments, cuts it into chunks of [chunkSize] bytes and sends
    each chunk with a PUT that carries a Content-Range header; status 308
    continues, status 200 completes, anything else is retried three times.

    The JavaScript is event driven.  Here the closure variables ([startByte],
    [bufferData]), the flowing/paused mode of [streamTrans], the promise
    returned to the caller and the list of HTTP exchanges are the fields of
    an explicit state, every handler is a function on that state, and the
    network ([fetch]), the file system ([fs.createReadStream]), the JSON
    built-ins and the timing of the stream and of the answers are an
    environment the model is parameterised by.

    What the model takes from Node.js:
    - the source delivers a finite list of fragments and does not fail, and
      the transform passes the fragments on as they are, so the ["error"]
      handler of line 179 is never called;
    - [fetch] always answers: a request that is never answered, or that
      fails below HTTP, is outside the model.  The exchanges of a call are
      listed in the order in which the requests are sent, and the answer to
      a request is a function of the exchanges listed before it;
    - the data handler pauses the stream before its first request and only
      a 308 resumes it; a paused stream emits no ["data"], and the events of
      a resumed stream come after the rest of the handler has run;
    - ["end"] is another matter.  The source is piped into [streamTrans]
      (line 50) before the session request is awaited (line 57), so the
      stream may hold the end of the source in its buffer before the last
      fragment is handed to the data handler.  The [read()] that hands out
      the last buffered fragment of a stream that has ended schedules
      ["end"] for the next tick, and that ["end"] is emitted whether the
      handler has paused the stream or not.  The end handler then runs
      while the request of the data handler is unanswered: it sees the
      [startByte] that is not yet advanced and the [bufferData] that is
      not yet cut (line 126 comes after the [await] of line 125), and the
      two calls of [upload], each with its own [upCount], go on side by
      side as their answers arrive.  When the end of the source reaches
      the stream after its last fragment was handed out, ["end"] waits for
      the stream to flow again, and the handlers run one after the other;
    - an exception inside the [async] executor does not settle the promise
      that [new Promise] returns. *)

From Stdlib Require Import ZArith List String Ascii Bool Lia DecimalString.
From Stdlib Require Import Strings.Byte.
Import ListNotations.
Local Open Scope Z_scope.

Infix "+++" := String.append (right associativity, at level 60).

Set Warnings "-register-all,-notation-for-abbreviation".

(** ** Data *)

(** A Node.js [Buffer]. *)
Definition Buffer := list byte.

Inductive Method := GET | POST | PUT.

Inductive Body :=
| NoBody
| TextBody (s : string)
| BufferBody (b : Buffer).

(** The arguments of a [fetch] call.  [url] is the JavaScript value handed
    to [fetch]: [location] is [null] when the session response has no such
    header. *)
Record Request := mkRequest {
  method : Method;
  url : option string;
  headers : list (string * string);
  body : Body
}.

(** What [fetch] resolves to: the status, the headers (names in lower case,
    as the Headers object keeps them) and the body as the fragments its
    stream delivers. *)
Record Response := mkResponse {
  status : Z;
  resp_headers : list (string * string);
  resp_body : list Buffer
}.

Record Exchange := mkExchange {
  sent : Request;
  received : Response
}.

(** A parsed JSON document.  Parsing and printing belong to the platform. *)
Inductive json :=
| JNull
| JBool (b : bool)
| JNumber (literal : string)
| JString (s : string)
| JArray (items : list json)
| JObject (fields : list (string * json)).

(** What the promise is settled with: a parsed document or a text. *)
Inductive Value :=
| JsonValue (j : json)
| TextValue (s : string).

(** The object [{ status, error }] given to [reject]. *)
Record Failure := mkFailure {
  fail_status : Z;
  fail_error : Value
}.

Inductive Promise :=
| Pending
| Resolved (v : Value)
| Rejected (f : Failure).

(** An exception that leaves the [async] executor.  The executor's own
    promise is dropped by [new Promise], so the promise returned to the
    caller is not settled by it. *)
Inductive Exn :=
| Error (message : string)
| SyntaxError
| TypeError.

(** The platform around the function.  [fetch h req] is the answer to
    [req] when it is sent after the exchanges [h].  [end_is_buffered] says
    whether the end of the source is in the buffer of [streamTrans] when
    its last fragment is handed to the data handler.  [data_answer_first n]
    says, when a request of the data handler and one of the end handler are
    both unanswered and [n] answers have arrived since the two started,
    whether the answer to the data handler's request arrives first. *)
Record Env := mkEnv {
  JSON_parse : string -> option json;
  JSON_stringify : json -> string;
  createReadStream : string -> list Buffer;
  fetch : list Exchange -> Request -> Response;
  end_is_buffered : bool;
  data_answer_first : nat -> bool
}.

(** The argument [object]; a field that is not given is [None]. *)
Module Obj.
Record t := make {
  filePath : option string;
  fileUrl : option string;
  resumableUrl : option string;
  dataSize : option Z;
  accessToken : option string;
  metadata : option json;
  chunkSize : option Z
}.
End Obj.

(** The variables of the executor that the handlers share. *)
Record State := mkState {
  startByte : Z;
  bufferData : list Buffer;
  flowing : bool;
  promise : Promise;
  log : list Exchange
}.

(** What one call leaves behind. *)
Record Run := mkRun {
  settled : Promise;
  thrown : option Exn;
  exchanges : list Exchange
}.

(** What happens on the network, in the order of time: a request is sent,
    the answer of an exchange arrives. *)
Inductive Event :=
| Sent (req : Request)
| Answered (e : Exchange).

(** A call of the closure [upload] that awaits an answer: the chunk it
    sends, its counter, and the request it has sent with the answer that is
    on its way. *)
Record Closure := mkClosure {
  cl_chunk : Buffer;
  cl_upCount : nat;
  cl_pending : Exchange
}.

(** The two closures that may be waiting at the same time, the data
    handler's and the end handler's, with the state they share and the
    events so far. *)
Record Flight := mkFlight {
  f_data : option Closure;
  f_end : option Closure;
  f_state : State;
  f_events : list Event
}.

(** ** Platform functions *)

(** [res.ok] *)
Definition ok (r : Response) : bool :=
  (200 <=? status r) && (status r <=? 299).

(** [await res.text()] *)
Definition text (r : Response) : string :=
  string_of_list_byte (List.concat (resp_body r)).

(** The statuses whose answer has no body: [res.body] is [null].  (An
    informational status is never the answer [fetch] resolves to.) *)
Definition null_body_status (code : Z) : bool :=
  (code =? 204) || (code =? 205) || (code =? 304).

(** [res.headers.get(name)] *)
Definition headers_get (name : string) (r : Response) : option string :=
  option_map snd (find (fun kv => String.eqb (fst kv) name) (resp_headers r)).

(** A number inside a template literal: an integer is printed with its
    decimal digits (up to 21 of them in JavaScript). *)
Definition js_string (z : Z) : string :=
  NilZero.string_of_int (Z.to_int z).

(** [buf.length] *)
Definition blen (b : Buffer) : Z := Z.of_nat (List.length b).

(** [Buffer.concat] *)
Definition Buffer_concat (l : list Buffer) : Buffer := List.concat l.

(** Node's adjustment of a slice index: a negative index counts from the
    end, and the result is clamped to [0, length]. *)
Definition adjustOffset (offset len : Z) : Z :=
  if offset <? 0 then Z.max 0 (offset + len)
  else if offset <? len then offset
  else len.

(** [buf.slice(start, end)]; [end] omitted is [None]. *)
Definition slice (b : Buffer) (start : Z) (end_ : option Z) : Buffer :=
  let s := adjustOffset start (blen b) in
  let e := match end_ with
           | Some e => adjustOffset e (blen b)
           | None => blen b
           end in
  firstn (Z.to_nat (e - s)) (skipn (Z.to_nat s) b).

(** A destructuring default. *)
Definition default {A} (d : A) (o : option A) : A :=
  match o with Some a => a | None => d end.

(** ** State updates *)

Definition record (req : Request) (res : Response) (st : State) : State :=
  mkState (startByte st) (bufferData st) (flowing st) (promise st)
          (log st ++ [mkExchange req res]).

(** A promise is settled once; later calls change nothing. *)
Definition settle (p : Promise) (st : State) : State :=
  match promise st with
  | Pending => mkState (startByte st) (bufferData st) (flowing st) p (log st)
  | _ => st
  end.

Definition resolve (v : Value) (st : State) : State := settle (Resolved v) st.

Definition reject (f : Failure) (st : State) : State := settle (Rejected f) st.

Definition pause (st : State) : State :=
  mkState (startByte st) (bufferData st) false (promise st) (log st).

Definition resume (st : State) : State :=
  mkState (startByte st) (bufferData st) true (promise st) (log st).

Definition set_startByte (z : Z) (st : State) : State :=
  mkState z (bufferData st) (flowing st) (promise st) (log st).

Definition set_bufferData (l : list Buffer) (st : State) : State :=
  mkState (startByte st) l (flowing st) (promise st) (log st).

(** ** The upload of the file (lines 71-179) *)

Section Upload.

Variable env : Env.
Variable location : option string.
Variable dataSize : Z.
Variable chunkSize : Z.

(** [`bytes ${startByte}-${startByte + dataChunk.length - 1}/${dataSize}`] *)
Definition content_range (start : Z) (dataChunk : Buffer) : string :=
  "bytes " +++ js_string start +++ "-"
  +++ js_string (start + blen dataChunk - 1) +++ "/" +++ js_string dataSize.

Definition put_request (start : Z) (dataChunk : Buffer) : Request :=
  mkRequest PUT location
            [("Content-Range"%string, content_range start dataChunk)]
            (BufferBody dataChunk).

(** [try { resolve(JSON.parse(text)) } catch (_) { resolve(text) }] *)
Definition parse_or_text (t : string) : Value :=
  match JSON_parse env t with
  | Some j => JsonValue j
  | None => TextValue t
  end.

(** The closure [upload] of either handler (the two differ in what they
    print only), run from its first request to its end with no other
    closure beside it.  [upCount] is the closure's counter; the recursion
    is on [fuel], and the handlers start it with [fuel = 3] and
    [upCount = 0].  With [fuel + upCount = 3] the last branch is never
    reached ([upload_spec]) and more fuel gives the same result
    ([upload_fuel]).  The same closure taken one answer at a time is
    [first_attempt] and [on_answer] below ([upload_by_steps]). *)
Fixpoint upload (dataChunk : Buffer) (fuel upCount : nat) (st : State)
  : State :=
  let req := put_request (startByte st) dataChunk in
  let res := fetch env (log st) req in
  let st := record req res st in
  if ok res && (status res =? 200) then
    resolve (parse_or_text (text res)) st
  else if status res =? 308 then
    resume (set_startByte (startByte st + blen dataChunk) st)
  else if (upCount =? 3)%nat then
    reject (mkFailure (status res) (TextValue (text res))) st
  else
    match fuel with
    | S fuel' => upload dataChunk fuel' (S upCount) st
    | O => st
    end.

(** [streamTrans.on("data", async (chunk) => ...)], run to its end.  The
    stream is paused before the first request and resumed by a 308 only, so
    the handler's last assignment runs before the next ["data"] event. *)
Definition on_data (chunk : Buffer) (st : State) : State :=
  let st := set_bufferData (bufferData st ++ [chunk]) st in
  let temp := Buffer_concat (bufferData st) in
  if chunkSize <=? blen temp then
    let dataChunk := slice temp 0 (Some chunkSize) in
    let left := slice temp chunkSize None in
    let st := pause st in
    let st := upload dataChunk 3 0 st in
    set_bufferData [left] st
  else st.

(** [streamTrans.on("end", async () => ...)], run to its end. *)
Definition on_end (st : State) : State :=
  let dataChunk := Buffer_concat (bufferData st) in
  if 0 <? blen dataChunk then upload dataChunk 3 0 st else st.

(** The ["data"] events of [streamTrans], each handled to its end: one per
    fragment, in order, as long as the stream is flowing. *)
Fixpoint emit_data (mainData : list Buffer) (st : State) : State :=
  match mainData with
  | [] => st
  | chunk :: rest =>
      if flowing st then emit_data rest (on_data chunk st) else st
  end.

(** The events of a stream whose end arrives after its last fragment was
    handed out: the fragments, then ["end"] if the stream is still flowing
    when the source is exhausted.  The handlers run one after the other. *)
Definition in_turn (mainData : list Buffer) (st : State) : State :=
  let st := emit_data mainData st in
  if flowing st then on_end st else st.

(** A call of [upload] up to its first [await]: the request is sent. *)
Definition first_attempt (dataChunk : Buffer) (st : State)
  : State * Closure :=
  let req := put_request (startByte st) dataChunk in
  let res := fetch env (log st) req in
  (record req res st, mkClosure dataChunk 0 (mkExchange req res)).

(** A call of [upload] from the arrival of an answer to its next [await],
    or to its end.  A retry builds its request from the [startByte] of
    that moment. *)
Definition on_answer (c : Closure) (st : State) : State * option Closure :=
  let res := received (cl_pending c) in
  if ok res && (status res =? 200) then
    (resolve (parse_or_text (text res)) st, None)
  else if status res =? 308 then
    (resume (set_startByte (startByte st + blen (cl_chunk c)) st), None)
  else if (cl_upCount c =? 3)%nat then
    (reject (mkFailure (status res) (TextValue (text res))) st, None)
  else
    let req := put_request (startByte st) (cl_chunk c) in
    let res' := fetch env (log st) req in
    (record req res' st,
     Some (mkClosure (cl_chunk c) (S (cl_upCount c)) (mkExchange req res'))).

(** The events of an answer that arrives for [c]. *)
Definition arrival (c : Closure) (next : option Closure) : list Event :=
  Answered (cl_pending c)
  :: match next with
     | Some c' => [Sent (sent (cl_pending c'))]
     | None => []
     end.

(** An answer arrives for the closure of the data handler; when the
    closure returns, the handler goes on with [bufferData = [left]]. *)
Definition data_step (left : Buffer) (c : Closure) (f : Flight) : Flight :=
  let (st, next) := on_answer c (f_state f) in
  mkFlight next (f_end f)
           (match next with
            | Some _ => st
            | None => set_bufferData [left] st
            end)
           (f_events f ++ arrival c next).

(** An answer arrives for the closure of the end handler. *)
Definition end_step (c : Closure) (f : Flight) : Flight :=
  let (st, next) := on_answer c (f_state f) in
  mkFlight (f_data f) next st (f_events f ++ arrival c next).

(** The next answer that arrives, if one is awaited. *)
Definition step (left : Buffer) (n : nat) (f : Flight) : option Flight :=
  match f_data f, f_end f with
  | None, None => None
  | Some cd, None => Some (data_step left cd f)
  | None, Some ce => Some (end_step ce f)
  | Some cd, Some ce =>
      Some (if data_answer_first env n then data_step left cd f
            else end_step ce f)
  end.

(** The answers arrive one by one until no closure waits.  Each closure
    takes four answers at most, so eight steps are enough
    ([flight_lands], [flight_fuel]). *)
Fixpoint flight (left : Buffer) (fuel n : nat) (f : Flight) : Flight :=
  match fuel with
  | O => f
  | S fuel' =>
      match step left n f with
      | Some f' => flight left fuel' (S n) f'
      | None => f
      end
  end.

(** The exchanges of handlers that run one after the other, as events:
    every request is answered before the next one is sent. *)
Definition in_turn_events (l : list Exchange) : list Event :=
  flat_map (fun e => [Sent (sent e); Answered e]) l.

(** The last fragment of a stream that holds the end of the source: the
    [read()] that hands the fragment out schedules ["end"], the data
    handler runs up to its first [await], and the end handler runs on the
    next tick, paused stream or not. *)
Definition last_data_and_end (chunk : Buffer) (st : State)
  : State * list Event :=
  let tr := in_turn_events (log st) in
  let st := set_bufferData (bufferData st ++ [chunk]) st in
  let temp := Buffer_concat (bufferData st) in
  if chunkSize <=? blen temp then
    let dataChunk := slice temp 0 (Some chunkSize) in
    let left := slice temp chunkSize None in
    let st := pause st in
    let (st, cd) := first_attempt dataChunk st in
    let tr := tr ++ [Sent (sent (cl_pending cd))] in
    (* the end handler, while the request above is unanswered *)
    let dataChunk' := Buffer_concat (bufferData st) in
    let f :=
      if 0 <? blen dataChunk' then
        let (st, ce) := first_attempt dataChunk' st in
        mkFlight (Some cd) (Some ce) st (tr ++ [Sent (sent (cl_pending ce))])
      else mkFlight (Some cd) None st tr in
    let f := flight left 8 0 f in
    (f_state f, f_events f)
  else
    let st := on_end st in
    (st, in_turn_events (log st)).

(** All events of [streamTrans], with the state they leave. *)
Definition streamTrans_events (mainData : list Buffer) (st : State)
  : State * list Event :=
  if end_is_buffered env then
    match rev mainData with
    | chunk :: front =>
        let st := emit_data (rev front) st in
        if flowing st then last_data_and_end chunk st
        else (st, in_turn_events (log st))
    | [] =>
        let st := in_turn [] st in
        (st, in_turn_events (log st))
    end
  else
    let st := in_turn mainData st in
    (st, in_turn_events (log st)).

Definition streamTrans (mainData : list Buffer) (st : State) : State :=
  fst (streamTrans_events mainData st).

(** Whether the data handler sends a chunk when it is given the last
    fragment. *)
Definition last_fragment_uploads (mainData : list Buffer) (st : State)
  : bool :=
  match rev mainData with
  | chunk :: front =>
      let st := emit_data (rev front) st in
      flowing st
      && (chunkSize <=? blen (Buffer_concat (bufferData st ++ [chunk])))
  | [] => false
  end.

End Upload.

(** ** The executor up to the session (lines 21-69) *)

(** What the upload of the file starts from. *)
Record Session := mkSession {
  s_mainData : list Buffer;
  s_location : option string;
  s_dataSize : Z;
  s_chunkSize : Z;
  s_log : list Exchange
}.

Definition get_request (fileUrl : string) : Request :=
  mkRequest GET (Some fileUrl) [] NoBody.

(** [if (accessToken)]: a string is truthy when it is not empty. *)
Definition truthy (s : option string) : bool :=
  match s with
  | Some t => negb (String.eqb t "")
  | None => false
  end.

Definition session_headers (accessToken : option string)
  : list (string * string) :=
  ("Content-Type", "application/json")%string
  :: (if truthy accessToken
      then [("authorization", "Bearer " +++ default "" accessToken)%string]
      else []).

Definition post_request (env : Env) (resumableUrl : string)
           (accessToken : option string) (metadata : json) : Request :=
  mkRequest POST (Some resumableUrl) (session_headers accessToken)
            (TextBody (JSON_stringify env metadata)).

(** What the executor has when it comes to [pipe]: the source of the
    fragments with the exchanges it cost, or an exception. *)
Inductive Retrieved :=
| Source (mainData : list Buffer) (log1 : list Exchange)
| Raised (x : Exn) (log1 : list Exchange).

(** Lines 37-44: a file, or the body of a GET.  [Readable.fromWeb] raises a
    [TypeError] when it is given the [null] body of an answer that has
    none. *)
Definition retrieve_data (env : Env) (filePath fileUrl : string)
  : Retrieved :=
  if negb (String.eqb filePath "") && String.eqb fileUrl "" then
    Source (createReadStream env filePath) []
  else if String.eqb filePath "" && negb (String.eqb fileUrl "") then
    let res1 := fetch env [] (get_request fileUrl) in
    if null_body_status (status res1) then
      Raised TypeError [mkExchange (get_request fileUrl) res1]
    else Source (resp_body res1) [mkExchange (get_request fileUrl) res1]
  else Raised (Error "Please set filePath or fileUrl") [].

Definition open_session (env : Env) (object : Obj.t) : Run + Session :=
  let filePath := default ""%string (Obj.filePath object) in
  let fileUrl := default ""%string (Obj.fileUrl object) in
  let resumableUrl := default ""%string (Obj.resumableUrl object) in
  let dataSize := default 0 (Obj.dataSize object) in
  let accessToken := Obj.accessToken object in
  let metadata := default (JObject []) (Obj.metadata object) in
  let chunkSize := default 16777216 (Obj.chunkSize object) in
  if String.eqb resumableUrl "" || (dataSize =? 0) then
    inl (mkRun Pending
               (Some (Error "Please set resumableUrl and dataSize")) [])
  else
    match retrieve_data env filePath fileUrl with
    | Raised x log1 => inl (mkRun Pending (Some x) log1)
    | Source mainData log1 =>
        let req2 := post_request env resumableUrl accessToken metadata in
        let res2 := fetch env log1 req2 in
        let log2 := log1 ++ [mkExchange req2 res2] in
        if ok res2 then
          inr (mkSession mainData (headers_get "location" res2)
                         dataSize chunkSize log2)
        else
          (* reject({ status: res2.status, error: await res2.json() }) *)
          match JSON_parse env (text res2) with
          | Some j =>
              inl (mkRun (Rejected (mkFailure (status res2) (JsonValue j)))
                         None log2)
          | None => inl (mkRun Pending (Some SyntaxError) log2)
          end
    end.

(** [let startByte = 0; let bufferData = [];], the promise not settled, and
    the stream flowing once its ["data"] handler is attached. *)
Definition initial (log0 : list Exchange) : State :=
  mkState 0 [] true Pending log0.

Definition upload_file_events (env : Env) (s : Session)
  : State * list Event :=
  streamTrans_events env (s_location s) (s_dataSize s) (s_chunkSize s)
                     (s_mainData s) (initial (s_log s)).

Definition upload_file (env : Env) (s : Session) : State :=
  streamTrans env (s_location s) (s_dataSize s) (s_chunkSize s)
              (s_mainData s) (initial (s_log s)).

Definition resumableUpload (env : Env) (object : Obj.t) : Run :=
  match open_session env object with
  | inl r => r
  | inr s =>
      let st := upload_file env s in
      mkRun (promise st) None (log st)
  end.

(** The events of a call.  Up to the session every request is awaited
    before the next. *)
Definition events (env : Env) (object : Obj.t) : list Event :=
  match open_session env object with
  | inl r => in_turn_events (exchanges r)
  | inr s => snd (upload_file_events env s)
  end.

(** The handlers of the call run one after the other, as in [in_turn]. *)
Definition upload_file_in_turn (env : Env) (s : Session) : State :=
  in_turn env (s_location s) (s_dataSize s) (s_chunkSize s)
          (s_mainData s) (initial (s_log s)).

(** The end handler starts while a request of the data handler is
    unanswered: the end of the source is buffered and the last fragment
    completes a chunk. *)
Definition overlaps (env : Env) (s : Session) : bool :=
  end_is_buffered env
  && last_fragment_uploads env (s_location s) (s_dataSize s) (s_chunkSize s)
                           (s_mainData s) (initial (s_log s)).

(** ** Concrete platforms for the examples *)

Definition bytes (s : string) : Buffer := list_byte_of_string s.

Definition reply (code : Z) (t : string) : Response :=
  mkResponse code [] [bytes t].

Definition session_reply (code : Z) (t : string) : Response :=
  mkResponse code [("location", "https://upload.example/session")%string]
             [bytes t].

Definition is_put (e : Exchange) : bool :=
  match method (sent e) with PUT => true | _ => false end.

(** A parser that knows three documents. *)
Definition toy_parse (s : string) : option json :=
  if String.eqb s "{}" then Some (JObject [])
  else if String.eqb s "[]" then Some (JArray [])
  else if String.eqb s "null" then Some JNull
  else None.

Definition toy_stringify (j : json) : string :=
  match j with
  | JArray [] => "[]"
  | JNull => "null"
  | _ => "{}"
  end.

(** A server that answers the session request with [post], the download
    with [get] and the n-th PUT with the n-th entry of [puts] (308 with an
    empty body once the list is used up). *)
Definition scripted (post get : Response) (puts : list Response)
  : list Exchange -> Request -> Response :=
  fun history req =>
    match method req with
    | POST => post
    | GET => get
    | PUT => nth (List.length (filter is_put history)) puts (reply 308 "")
    end.

(** The answers arrive in the order of the requests: when both closures
    wait, the data handler's request is the older one at every other
    answer. *)
Definition in_order (n : nat) : bool := Nat.even n.

(** A platform with one file, delivered as [fragments] and buffered with
    its end before the handlers are attached, as a small file is. *)
Definition toy_env (fragments : list Buffer) (post : Response)
           (puts : list Response) : Env :=
  mkEnv toy_parse toy_stringify (fun _ => fragments)
        (scripted post (mkResponse 200 [] fragments) puts)
        true in_order.

Definition file_object (size chunk : Z) : Obj.t :=
  Obj.make (Some "video.mp4"%string) None
           (Some "https://upload.example/start"%string)
           (Some size) (Some "token"%string) None (Some chunk).

(** ** Reading the list of exchanges *)

(** The bytes a request carries. *)
Definition payload (req : Request) : Buffer :=
  match body req with
  | BufferBody b => b
  | _ => []
  end.

Definition chunk_of (e : Exchange) : Buffer := payload (sent e).

(** A chunk the server acknowledged with 308. *)
Definition continued (e : Exchange) : bool :=
  is_put e && (status (received e) =? 308).

(** A chunk the server answered with 200. *)
Definition completed (e : Exchange) : bool :=
  is_put e && (status (received e) =? 200).

(** A chunk the server took: 308 or 200. *)
Definition accepted (e : Exchange) : bool := continued e || completed e.

(** A status that is neither 200 nor 308. *)
Definition failing (r : Response) : Prop :=
  status r <> 200 /\ status r <> 308.

(** A chunk request answered with a failing status. *)
Definition refused (e : Exchange) : bool :=
  is_put e && negb (status (received e) =? 200)
  && negb (status (received e) =? 308).

(** The number of bytes acknowledged with 308 in a list of exchanges. *)
Definition confirmed (l : list Exchange) : Z :=
  blen (List.concat (map chunk_of (filter continued l))).

(** The bytes of the chunks the server took, in order. *)
Definition accepted_bytes (l : list Exchange) : Buffer :=
  List.concat (map chunk_of (filter accepted l)).


(** ** Reading the events *)

(** The exchanges whose answers have arrived, in the order of arrival. *)
Definition answers (tr : list Event) : list Exchange :=
  flat_map (fun ev => match ev with
                      | Answered e => [e]
                      | Sent _ => []
                      end) tr.

(** The requests that were sent, in the order of sending. *)
Definition sent_requests (tr : list Event) : list Request :=
  flat_map (fun ev => match ev with
                      | Sent req => [req]
                      | Answered _ => []
                      end) tr.

(** The number of bytes acknowledged with 308 by the answers that have
    arrived. *)
Definition acknowledged (tr : list Event) : Z := confirmed (answers tr).

(** Every chunk request is built from the bytes acknowledged when it is
    sent. *)
Definition well_sent (location : option string) (dataSize : Z)
           (tr : list Event) : Prop :=
  forall a req b,
    tr = a ++ Sent req :: b ->
    method req = PUT ->
    req = put_request location dataSize (acknowledged a) (payload req).

(** The requests a waiting closure may still add, and the answers it may
    still take. *)
Definition retries (c : option Closure) : nat :=
  match c with
  | Some c => 3 - cl_upCount c
  | None => 0
  end.

Definition awaited (c : option Closure) : nat :=
  match c with
  | Some c => 4 - cl_upCount c
  | None => 0
  end.

(** A closure that waits for the answer to a chunk request it has sent. *)
Definition waiting (l : list Exchange) (c : Closure) : Prop :=
  In (cl_pending c) l
  /\ is_put (cl_pending c) = true
  /\ chunk_of (cl_pending c) = cl_chunk c
  /\ (cl_upCount c <= 3)%nat.

(** A promise that is resolved was resolved by a chunk answered 200. *)
Definition resolved_by_200 (env : Env) (p : Promise) (l : list Exchange)
  : Prop :=
  forall v, p = Resolved v ->
    exists e, In e l /\ completed e = true
              /\ v = parse_or_text env (text (received e)).

(** A state with another list of exchanges. *)
Definition with_log (l : list Exchange) (st : State) : State :=
  mkState (startByte st) (bufferData st) (flowing st) (promise st) l.

(** Every entry of a list satisfies [P] relative to what precedes it. *)
Definition Hist {A} (P : list A -> A -> Prop) (l : list A) : Prop :=
  forall pre x post, l = pre ++ x :: post -> P pre x.

(** The three ways a call of [upload] ends, [l] being the list of
    exchanges it leaves and [last] the answer to its last request. *)
Definition ends_done (env : Env) (last : Response) (l : list Exchange)
           (st st' : State) : Prop :=
  status last = 200
  /\ st' = resolve (parse_or_text env (text last)) (with_log l st).

Definition ends_continue (dataChunk : Buffer) (last : Response)
           (l : list Exchange) (st st' : State) : Prop :=
  status last = 308
  /\ st' = resume (set_startByte (startByte st + blen dataChunk)
                                 (with_log l st)).

Definition ends_failed (last : Response) (l : list Exchange)
           (st st' : State) : Prop :=
  failing last
  /\ st' = reject (mkFailure (status last) (TextValue (text last)))
                  (with_log l st).

(** The last entry of a list. *)
Definition final {A} (l : list A) : option A :=
  match rev l with
  | [] => None
  | x :: _ => Some x
  end.

(** What the last exchange says about the promise. *)
Definition verdict (env : Env) (l : list Exchange) : Promise :=
  match final l with
  | Some e =>
      if completed e then
        Resolved (parse_or_text env (text (received e)))
      else if refused e then
        Rejected (mkFailure (status (received e))
                            (TextValue (text (received e))))
      else Pending
  | None => Pending
  end.

(** The list does not end with a chunk that was answered otherwise than
    with 308. *)
Definition last_continues (l : list Exchange) : Prop :=
  forall e, final l = Some e -> is_put e = true -> continued e = true.

(** [x] comes right after [pre]: if [pre] ends with a chunk request, that
    one was acknowledged with 308, or it was refused and [x] repeats it. *)
Definition follows (pre : list Exchange) (x : Exchange) : Prop :=
  forall e1, final pre = Some e1 -> is_put e1 = true ->
    continued e1 = true \/ (refused e1 = true /\ sent x = sent e1).

(** A chunk exchange [x] that comes after [pre] in an upload of
    [content]. *)
Definition chunk_exchange (env : Env) (location : option string)
           (dataSize : Z) (content : Buffer)
           (pre : list Exchange) (x : Exchange) : Prop :=
  follows pre x
  /\ (is_put x = true ->
      sent x = put_request location dataSize (confirmed pre) (chunk_of x)
      /\ received x = fetch env pre (sent x)
      /\ exists rest, accepted_bytes pre ++ chunk_of x ++ rest = content).

(** What holds between two events of [streamTrans], [remaining] being the
    fragments not yet delivered. *)
Record Inv (env : Env) (location : option string) (dataSize chunkSize : Z)
       (content : Buffer) (remaining : list Buffer) (st : State) : Prop :=
  mkInv {
    inv_hist : Hist (chunk_exchange env location dataSize content) (log st);
    inv_start : startByte st = confirmed (log st);
    inv_promise : promise st = verdict env (log st);
    inv_flowing : flowing st = true -> last_continues (log st);
    inv_paused :
      flowing st = false ->
      exists e, final (log st) = Some e
                /\ is_put e = true /\ continued e = false;
    inv_content :
      exists pend,
        accepted_bytes (log st) ++ pend = content
        /\ (flowing st = true ->
            pend = Buffer_concat (bufferData st) ++ Buffer_concat remaining);
    inv_size :
      0 < chunkSize ->
      Forall (fun e => is_put e = true -> blen (chunk_of e) = chunkSize)
             (log st)
  }.

(** What holds of two closures that wait side by side, without any
    assumption on where they started: the exchanges since [l0] are chunk
    requests that carry [cD] or [cE], at most [bound] with the retries
    that are left, and [startByte] is not below [s0]. *)
Record FlightLog (l0 : list Exchange) (s0 : Z) (cD cE : Buffer)
       (bound : nat) (f : Flight) : Prop :=
  mkFlightLog {
    fl_log :
      exists puts,
        log (f_state f) = l0 ++ puts
        /\ Forall (fun x => is_put x = true
                            /\ (chunk_of x = cD \/ chunk_of x = cE)) puts
        /\ (List.length puts + retries (f_data f) + retries (f_end f)
            <= bound)%nat;
    fl_data :
      forall c, f_data f = Some c ->
                waiting (log (f_state f)) c /\ cl_chunk c = cD;
    fl_end :
      forall c, f_end f = Some c ->
                waiting (log (f_state f)) c /\ cl_chunk c = cE;
    fl_start : s0 <= startByte (f_state f)
  }.

(** What holds of them when they started from a state where [startByte]
    was the number of bytes acknowledged. *)
Record FlightEvents (env : Env) (location : option string) (dataSize : Z)
       (f : Flight) : Prop :=
  mkFlightEvents {
    fe_ack : startByte (f_state f) = acknowledged (f_events f);
    fe_sent : well_sent location dataSize (f_events f);
    fe_requests : sent_requests (f_events f) = map sent (log (f_state f));
    fe_resolved :
      resolved_by_200 env (promise (f_state f)) (log (f_state f))
  }.

(** ** Example calls *)

Definition no_exchange : Exchange :=
  mkExchange (get_request "") (reply 0 "").

(** Three fragments of two bytes, chunks of two bytes, a server that
    continues twice and completes with a JSON document. *)
Definition env_done : Env :=
  toy_env [bytes "ab"; bytes "cd"; bytes "ef"] (session_reply 200 "")
          [reply 308 ""; reply 308 ""; reply 200 "{}"].


(** One fragment of five bytes and a server that always continues. *)
Definition env_open : Env :=
  toy_env [bytes "abcde"] (session_reply 200 "") [].

(** One fragment that fills a chunk, and a server that is down for every
    chunk. *)
Definition env_down : Env :=
  mkEnv toy_parse toy_stringify (fun _ => [bytes "ab"])
        (fun _ req =>
           match method req with
           | POST => session_reply 200 ""
           | _ => reply 503 "down"
           end)
        true in_order.

(** One fragment that fills a chunk, and a server that completes the
    upload at the first chunk request, refuses the second and continues at
    the third. *)
Definition env_twice : Env :=
  toy_env [bytes "ab"] (session_reply 200 "")
          [reply 200 "{}"; reply 500 "busy"; reply 308 ""].

(** One fragment of five bytes, and a server that refuses the first and
    the third chunk request. *)
Definition env_shift : Env :=
  toy_env [bytes "abcde"] (session_reply 200 "")
          [reply 500 "busy"; reply 308 ""; reply 500 "busy"; reply 308 ""].

(** A session request that is answered with 503 and a plain text. *)
Definition env_unavailable : Env :=
  toy_env [bytes "abcde"] (session_reply 503 "Service Unavailable") [].

(** A server that follows the protocol for a content of five bytes: 200
    for the chunk that ends it, 308 for any other. *)
Definition env_protocol : Env :=
  mkEnv toy_parse toy_stringify (fun _ => [bytes "ab"; bytes "cd"; bytes "e"])
        (fun h req =>
           match method req with
           | POST => session_reply 200 ""
           | GET => reply 200 ""
           | PUT =>
               if blen (accepted_bytes h) + blen (payload req) =? 5
               then reply 200 "{}"
               else reply 308 ""
           end)
        true in_order.

(** An object without [resumableUrl]. *)
Definition object_without_url : Obj.t :=
  Obj.make (Some "video.mp4"%string) None None (Some 5) None None None.

(** ** The conditions the claims speak of *)

(** A string argument that is given, and not as the empty string. *)
Definition given (o : option string) : bool :=
  negb (String.eqb (default ""%string o) "").

(** The configuration the executor refuses. *)
Definition misconfigured (object : Obj.t) : Prop :=
  given (Obj.resumableUrl object) = false
  \/ default 0 (Obj.dataSize object) = 0
  \/ given (Obj.filePath object) = given (Obj.fileUrl object).

(** The same with a size that is missing or not positive. *)
Definition misconfigured_with_negative_sizes (object : Obj.t) : Prop :=
  given (Obj.resumableUrl object) = false
  \/ default 0 (Obj.dataSize object) <= 0
  \/ given (Obj.filePath object) = given (Obj.fileUrl object).

(** The call raises an [Error] and has sent nothing. *)
Definition fails_before_network (run : Run) : Prop :=
  (exists message, thrown run = Some (Error message))
  /\ exchanges run = [].



(** ** Attempts *)

(** The exchanges of one call of [upload]: one chunk request, sent again
    after each failing answer, four times at most. *)
Definition attempt_segment (seg : list Exchange) : Prop :=
  exists req fails last,
    seg = map (mkExchange req) (fails ++ [last])
    /\ method req = PUT
    /\ Forall failing fails
    /\ (List.length fails <= 3)%nat
    /\ (failing last -> List.length fails = 3%nat).

(** The answers to [n] successive sendings of [req] after the exchanges
    [l]. *)
Fixpoint attempts (env : Env) (req : Request) (l : list Exchange) (n : nat)
  : list Response :=
  match n with
  | O => []
  | S n' =>
      let r := fetch env l req in
      r :: attempts env req (l ++ [mkExchange req r]) n'
  end.

(** A server that refuses a chunk three times and then acknowledges it. *)
Definition env_flaky : Env :=
  toy_env [bytes "ab"; bytes "cd"] (session_reply 200 "")
          [reply 500 "one"; reply 500 "two"; reply 500 "three";
           reply 308 ""].

(** ** Cutting a content *)



(** * Facts *)

(** Split a conjunction into its parts, and nothing else. *)
Ltac conjs := repeat match goal with |- _ /\ _ => split end.

(** ** Buffers *)

Lemma adjustOffset_range offset len :
  0 <= len -> 0 <= adjustOffset offset len <= len.
Proof.
  intros Hlen. unfold adjustOffset.
  destruct (offset <? 0) eqn:Hneg; [apply Z.ltb_lt in Hneg; lia|].
  apply Z.ltb_ge in Hneg.
  destruct (offset <? len) eqn:Hlt;
    [apply Z.ltb_lt in Hlt | apply Z.ltb_ge in Hlt]; lia.
Qed.

Lemma blen_nonneg b : 0 <= blen b.
Proof. unfold blen. lia. Qed.

Lemma blen_app a b : blen (a ++ b) = blen a + blen b.
Proof. unfold blen. rewrite length_app. lia. Qed.

Lemma blen_nil_iff b : blen b = 0 <-> b = [].
Proof.
  unfold blen. split; intros H; [|subst; reflexivity].
  destruct b; [reflexivity | simpl in H; lia].
Qed.

(** [slice(0, n)] and [slice(n)] cut a buffer in two, whatever [n] is. *)
Lemma slice_split (temp : Buffer) (n : Z) :
  slice temp 0 (Some n) ++ slice temp n None = temp.
Proof.
  unfold slice.
  pose proof (adjustOffset_range n (blen temp) (blen_nonneg temp)) as Hn.
  assert (H0 : adjustOffset 0 (blen temp) = 0).
  { unfold adjustOffset. simpl.
    destruct (0 <? blen temp) eqn:E; [reflexivity|].
    apply Z.ltb_ge in E. pose proof (blen_nonneg temp). lia. }
  rewrite H0, Z.sub_0_r. simpl skipn.
  set (k := adjustOffset n (blen temp)) in *.
  rewrite (firstn_all2 (n := Z.to_nat (blen temp - k))).
  - apply firstn_skipn.
  - rewrite length_skipn. unfold blen in *. lia.
Qed.

(** With [0 < n <= length], [slice(0, n)] has exactly [n] bytes. *)
Lemma slice_head_length (temp : Buffer) (n : Z) :
  0 < n -> n <= blen temp -> blen (slice temp 0 (Some n)) = n.
Proof.
  intros Hpos Hle. unfold slice.
  assert (H0 : adjustOffset 0 (blen temp) = 0).
  { unfold adjustOffset. simpl.
    destruct (0 <? blen temp) eqn:E; [reflexivity|].
    apply Z.ltb_ge in E. lia. }
  assert (Hn : adjustOffset n (blen temp) = n).
  { unfold adjustOffset.
    destruct (n <? 0) eqn:E1; [apply Z.ltb_lt in E1; lia|].
    destruct (n <? blen temp) eqn:E2; [reflexivity|].
    apply Z.ltb_ge in E2. lia. }
  rewrite H0, Hn, Z.sub_0_r. simpl skipn.
  unfold blen in *. rewrite length_firstn. lia.
Qed.


Lemma middle_of_content (a chunk rest : Buffer) :
  chunk = firstn (List.length chunk)
                 (skipn (Z.to_nat (blen a)) (a ++ chunk ++ rest)).
Proof.
  unfold blen. rewrite Nat2Z.id, skipn_app, skipn_all, Nat.sub_diag.
  simpl. rewrite firstn_app, firstn_all, Nat.sub_diag. simpl.
  rewrite app_nil_r. reflexivity.
Qed.

(** ** Lists of exchanges *)

Lemma app_cons_split {A} (l1 l2 pre post : list A) (x : A) :
  l1 ++ l2 = pre ++ x :: post ->
  (exists post1, l1 = pre ++ x :: post1 /\ post = post1 ++ l2)
  \/ (exists pre2, pre = l1 ++ pre2 /\ l2 = pre2 ++ x :: post).
Proof.
  revert pre. induction l1 as [|a l1 IH]; intros pre H; simpl in H.
  - right. exists pre. split; [reflexivity | exact H].
  - destruct pre as [|b pre]; simpl in H.
    + injection H as -> <-. left. exists l1. split; reflexivity.
    + injection H as -> H. destruct (IH _ H) as [[p1 [-> ->]]|[p2 [-> ->]]].
      * left. exists p1. split; reflexivity.
      * right. exists p2. split; reflexivity.
Qed.

Lemma Hist_app {A} (P : list A -> A -> Prop) (l1 l2 : list A) :
  Hist P l1 -> Hist (fun pre x => P (l1 ++ pre) x) l2 -> Hist P (l1 ++ l2).
Proof.
  intros H1 H2 pre x post E.
  destruct (app_cons_split _ _ _ _ _ E) as [[p1 [E1 _]]|[p2 [-> E2]]].
  - exact (H1 _ _ _ E1).
  - exact (H2 _ _ _ E2).
Qed.

Lemma ok_200 (r : Response) :
  ok r && (status r =? 200) = (status r =? 200).
Proof.
  unfold ok. destruct (status r =? 200) eqn:E.
  - apply Z.eqb_eq in E. rewrite E. reflexivity.
  - apply andb_false_r.
Qed.

Lemma final_snoc {A} (l : list A) (x : A) : final (l ++ [x]) = Some x.
Proof. unfold final. rewrite rev_app_distr. reflexivity. Qed.

Lemma final_inv {A} (l : list A) (x : A) :
  final l = Some x -> exists pre, l = pre ++ [x].
Proof.
  destruct l as [|y l _] using rev_ind; [discriminate|].
  rewrite final_snoc. intros [= ->]. exists l. reflexivity.
Qed.

Lemma confirmed_app l l' : confirmed (l ++ l') = confirmed l + confirmed l'.
Proof.
  unfold confirmed. rewrite filter_app, map_app, concat_app, blen_app.
  reflexivity.
Qed.

Lemma confirmed_snoc pre e :
  confirmed (pre ++ [e])
  = confirmed pre + (if continued e then blen (chunk_of e) else 0).
Proof.
  rewrite confirmed_app. f_equal. unfold confirmed. simpl.
  destruct (continued e); simpl; [rewrite app_nil_r|]; reflexivity.
Qed.

Lemma accepted_bytes_app l l' :
  accepted_bytes (l ++ l') = accepted_bytes l ++ accepted_bytes l'.
Proof.
  unfold accepted_bytes. rewrite filter_app, map_app, concat_app.
  reflexivity.
Qed.

Lemma filter_none {A} (f : A -> bool) (l : list A) :
  Forall (fun x => f x = false) l -> filter f l = [].
Proof.
  induction 1 as [|x l Hx _ IH]; simpl; [reflexivity|].
  rewrite Hx. exact IH.
Qed.


Lemma failing_status (r : Response) :
  failing r <-> (status r =? 200) = false /\ (status r =? 308) = false.
Proof.
  unfold failing. rewrite !Z.eqb_neq. reflexivity.
Qed.

Lemma accepted_is_put e : accepted e = true -> is_put e = true.
Proof.
  unfold accepted, continued, completed.
  destruct (is_put e); [reflexivity | discriminate].
Qed.

(** Before a chunk request, the accepted bytes are the confirmed ones. *)
Lemma accepted_confirmed pre :
  Forall (fun x => completed x = false) pre ->
  blen (accepted_bytes pre) = confirmed pre.
Proof.
  intros Hno. unfold accepted_bytes, confirmed.
  rewrite (filter_ext_in accepted continued); [reflexivity|].
  intros x Hx. rewrite Forall_forall in Hno. unfold accepted.
  rewrite (Hno x Hx). apply orb_false_r.
Qed.


(** The exchanges of refused attempts count for nothing. *)
Lemma refused_attempts req fails :
  method req = PUT ->
  Forall failing fails ->
  let seg := map (mkExchange req) fails in
  confirmed seg = 0 /\ accepted_bytes seg = []
  /\ Forall (fun e => refused e = true) seg.
Proof.
  intros Hput Hfails seg.
  assert (Hc : Forall (fun e => continued e = false) seg).
  { apply Forall_map. eapply Forall_impl; [|exact Hfails].
    intros r Hr. apply failing_status in Hr. unfold continued. simpl.
    rewrite (proj2 Hr). apply andb_false_r. }
  assert (Ha : Forall (fun e => accepted e = false) seg).
  { apply Forall_map. eapply Forall_impl; [|exact Hfails].
    intros r Hr. apply failing_status in Hr.
    unfold accepted, continued, completed. simpl.
    rewrite (proj1 Hr), (proj2 Hr), !andb_false_r. reflexivity. }
  repeat split.
  - unfold confirmed. rewrite (filter_none _ _ Hc). reflexivity.
  - unfold accepted_bytes. rewrite (filter_none _ _ Ha). reflexivity.
  - apply Forall_map. eapply Forall_impl; [|exact Hfails].
    intros r Hr. apply failing_status in Hr.
    unfold refused, is_put. simpl.
    rewrite Hput, (proj1 Hr), (proj2 Hr). reflexivity.
Qed.

(** A prefix of [fails ++ [last]] that stops before an entry lies in
    [fails]. *)
Lemma prefix_of_attempts {A} (fails : list A) (last : A) rs1 r rs2 :
  fails ++ [last] = rs1 ++ r :: rs2 ->
  exists tl, fails = rs1 ++ tl.
Proof.
  intros E. destruct (app_cons_split _ _ _ _ _ E) as [[p1 [-> _]]|[p2 [-> E2]]].
  - exists (r :: p1). reflexivity.
  - destruct p2 as [|a p2]; simpl in E2.
    + exists []. rewrite !app_nil_r. reflexivity.
    + injection E2 as _ E2. destruct p2; discriminate.
Qed.

(** ** The promise *)

Lemma log_settle p st : log (settle p st) = log st.
Proof. unfold settle. destruct (promise st); reflexivity. Qed.

Lemma startByte_settle p st : startByte (settle p st) = startByte st.
Proof. unfold settle. destruct (promise st); reflexivity. Qed.

Lemma bufferData_settle p st : bufferData (settle p st) = bufferData st.
Proof. unfold settle. destruct (promise st); reflexivity. Qed.

Lemma flowing_settle p st : flowing (settle p st) = flowing st.
Proof. unfold settle. destruct (promise st); reflexivity. Qed.

Lemma promise_settle p st :
  promise st = Pending -> promise (settle p st) = p.
Proof. unfold settle. intros ->. reflexivity. Qed.

(** A list that does not end with an unanswered or refused chunk leaves
    the promise pending. *)
Lemma verdict_continues env l : last_continues l -> verdict env l = Pending.
Proof.
  unfold last_continues, verdict. intros H.
  destruct (final l) as [e|]; [|reflexivity].
  specialize (H e eq_refl).
  unfold completed, refused, continued in *.
  destruct (is_put e); simpl in *; [|reflexivity].
  specialize (H eq_refl). apply Z.eqb_eq in H. rewrite H. reflexivity.
Qed.

(** ** One call of [upload] *)

Section UploadFacts.

Variable env : Env.
Variable location : option string.
Variable dataSize : Z.

Local Notation put := (put_request location dataSize).
Local Notation upload' := (upload env location dataSize).

(** A call of [upload] sends one request one or more times: every answer
    is what [fetch] gives after the exchanges before it, every answer but
    the last is a failing one, and the last answer decides how the call
    ends.  The counter never passes 3, so the fuel is enough. *)
Lemma upload_spec (dataChunk : Buffer) (fuel upCount : nat) (st : State) :
  (upCount + fuel = 3)%nat ->
  exists fails last,
    let req := put (startByte st) dataChunk in
    let l := log st ++ map (mkExchange req) (fails ++ [last]) in
    let st' := upload' dataChunk fuel upCount st in
    Forall failing fails
    /\ Hist (fun pre r =>
               r = fetch env (log st ++ map (mkExchange req) pre) req)
            (fails ++ [last])
    /\ (ends_done env last l st st'
        \/ ends_continue dataChunk last l st st'
        \/ (ends_failed last l st st'
            /\ (List.length fails + upCount = 3)%nat)).
Proof.
  revert upCount st.
  assert (Hone : forall st res,
             res = fetch env (log st) (put (startByte st) dataChunk) ->
             Hist (fun pre r =>
                     r = fetch env
                           (log st
                            ++ map (mkExchange
                                      (put (startByte st) dataChunk)) pre)
                           (put (startByte st) dataChunk)) [res]).
  { intros st res Hres pre r post E.
    destruct pre as [|a pre]; simpl in E.
    - injection E as <- _. simpl. rewrite app_nil_r. exact Hres.
    - injection E as _ E. destruct pre; discriminate. }
  induction fuel as [|fuel IH]; intros upCount st Hsum; simpl;
    set (req := put (startByte st) dataChunk);
    set (res := fetch env (log st) req);
    rewrite ok_200;
    destruct (status res =? 200) eqn:E200;
    try (apply Z.eqb_eq in E200; exists [], res; simpl;
         split; [constructor|]; split; [apply Hone; reflexivity|];
         left; split; [exact E200 | reflexivity]);
    destruct (status res =? 308) eqn:E308;
    try (apply Z.eqb_eq in E308; exists [], res; simpl;
         split; [constructor|]; split; [apply Hone; reflexivity|];
         right; left; split; [exact E308 | reflexivity]);
    apply Z.eqb_neq in E200, E308;
    destruct (upCount =? 3)%nat eqn:E3;
    try (apply Nat.eqb_eq in E3; exists [], res; simpl;
         split; [constructor|]; split; [apply Hone; reflexivity|];
         right; right; repeat split; assumption).
  - apply Nat.eqb_neq in E3. lia.
  - apply Nat.eqb_neq in E3.
    destruct (IH (S upCount) (record req res st) ltac:(lia))
      as (fails & last & Hfails & Horacle & Hend).
    simpl in Hfails, Horacle, Hend. fold req in Horacle, Hend.
    exists (res :: fails), last. simpl. fold req.
    rewrite <- app_assoc in Hend. simpl in Hend.
    split; [constructor; [split; assumption | exact Hfails]|].
    split.
    + intros pre r post E. destruct pre as [|a pre]; simpl in E.
      * injection E as <- _. simpl. rewrite app_nil_r. reflexivity.
      * injection E as <- E. simpl.
        rewrite (Horacle pre r post E) at 1.
        rewrite <- app_assoc. reflexivity.
    + destruct Hend as [Hd | [Hc | [Hf Hn]]].
      * left. exact Hd.
      * right. left. exact Hc.
      * right. right. split; [exact Hf | lia].
Qed.

(** More fuel than the retries that are left changes nothing. *)
Lemma upload_fuel (dataChunk : Buffer) (n fuel upCount : nat) (st : State) :
  (upCount + n = 3)%nat ->
  (n <= fuel)%nat ->
  upload' dataChunk fuel upCount st = upload' dataChunk n upCount st.
Proof.
  revert fuel upCount st.
  induction n as [|n IH]; intros fuel upCount st Hsum Hle.
  - assert (E3 : (upCount =? 3)%nat = true) by (apply Nat.eqb_eq; lia).
    destruct fuel; simpl; rewrite E3; reflexivity.
  - destruct fuel as [|fuel]; [lia|]. simpl.
    rewrite (IH fuel (S upCount)) by lia. reflexivity.
Qed.

End UploadFacts.


Lemma upload_log_length env location dataSize dataChunk fuel upCount st :
  (List.length (log (upload env location dataSize dataChunk fuel upCount st))
   <= List.length (log st) + S fuel)%nat.
Proof.
  revert upCount st.
  induction fuel as [|fuel IH]; intros upCount st; simpl;
    repeat match goal with
           | |- context [if ?c then _ else _] => destruct c
           end;
    unfold resolve, reject; rewrite ?log_settle; simpl;
    rewrite ?length_app; simpl; try lia.
  eapply Nat.le_trans; [apply IH|]. simpl. rewrite length_app. simpl. lia.
Qed.

Lemma log_of_ending env dataChunk last l st st' :
  ends_done env last l st st'
  \/ ends_continue dataChunk last l st st'
  \/ ends_failed last l st st' ->
  log st' = l.
Proof.
  intros [[_ ->] | [[_ ->] | [_ ->]]];
    unfold resolve, reject; rewrite ?log_settle; reflexivity.
Qed.

(** A call of [upload] adds one segment of attempts. *)
Lemma upload_attempts env location dataSize dataChunk st :
  exists seg,
    log (upload env location dataSize dataChunk 3 0 st) = log st ++ seg
    /\ attempt_segment seg
    /\ Forall (fun e => sent e
                        = put_request location dataSize (startByte st)
                                      dataChunk) seg.
Proof.
  destruct (upload_spec env location dataSize dataChunk 3 0 st eq_refl)
    as (fails & last & Hspec).
  cbv zeta in Hspec. destruct Hspec as (Hfails & _ & Hend).
  set (req := put_request location dataSize (startByte st) dataChunk) in *.
  assert (Hlog : log (upload env location dataSize dataChunk 3 0 st)
                 = log st ++ map (mkExchange req) (fails ++ [last])).
  { eapply log_of_ending with (dataChunk := dataChunk).
    destruct Hend as [H | [H | [H _]]]; [left | right; left | right; right];
      exact H. }
  exists (map (mkExchange req) (fails ++ [last])).
  split; [exact Hlog|]. split.
  - exists req, fails, last. conjs; try reflexivity; try assumption.
    + pose proof (upload_log_length env location dataSize dataChunk 3 0 st)
        as Hlen.
      rewrite Hlog, length_app, length_map, length_app in Hlen.
      simpl in Hlen. lia.
    + intros Hfail.
      destruct Hend as [[H200 _] | [[H308 _] | [_ Hn]]];
        [destruct Hfail; contradiction | destruct Hfail; contradiction | lia].
  - apply Forall_map. apply Forall_forall. intros r _. reflexivity.
Qed.

Lemma attempt_segment_puts seg :
  attempt_segment seg -> seg <> [] /\ Forall (fun e => is_put e = true) seg.
Proof.
  intros (req & fails & last & -> & Hput & _). split.
  - destruct fails; discriminate.
  - apply Forall_map. apply Forall_forall. intros r _.
    unfold is_put. simpl. rewrite Hput. reflexivity.
Qed.

Lemma concat_segments_puts segs :
  Forall attempt_segment segs ->
  Forall (fun e => is_put e = true) (List.concat segs).
Proof.
  induction 1 as [|seg segs Hseg _ IH]; simpl; [constructor|].
  apply Forall_app. split; [|exact IH].
  apply attempt_segment_puts. exact Hseg.
Qed.

Lemma upload_step_308 env location dataSize dataChunk fuel upCount st :
  let req := put_request location dataSize (startByte st) dataChunk in
  let res := fetch env (log st) req in
  status res = 308 ->
  upload env location dataSize dataChunk fuel upCount st
  = mkState (startByte st + blen dataChunk) (bufferData st) true (promise st)
            (log st ++ [mkExchange req res]).
Proof.
  intros req res H308.
  assert (E200 : (status res =? 200) = false)
    by (apply Z.eqb_neq; rewrite H308; discriminate).
  assert (E308 : (status res =? 308) = true) by (apply Z.eqb_eq; exact H308).
  destruct fuel; simpl; fold req; fold res;
    rewrite ok_200, E200, E308; reflexivity.
Qed.

Lemma upload_step_200 env location dataSize dataChunk fuel upCount st :
  let req := put_request location dataSize (startByte st) dataChunk in
  let res := fetch env (log st) req in
  status res = 200 ->
  promise st = Pending ->
  upload env location dataSize dataChunk fuel upCount st
  = mkState (startByte st) (bufferData st) (flowing st)
            (Resolved (parse_or_text env (text res)))
            (log st ++ [mkExchange req res]).
Proof.
  intros req res H200 Hpend.
  assert (E200 : (status res =? 200) = true) by (apply Z.eqb_eq; exact H200).
  destruct fuel; simpl; fold req; fold res;
    rewrite ok_200, E200; unfold resolve, settle; simpl; rewrite Hpend;
    reflexivity.
Qed.

Lemma upload_step_refused env location dataSize dataChunk fuel st :
  let req := put_request location dataSize (startByte st) dataChunk in
  let res := fetch env (log st) req in
  failing res ->
  promise st = Pending ->
  upload env location dataSize dataChunk fuel 3 st
  = mkState (startByte st) (bufferData st) (flowing st)
            (Rejected (mkFailure (status res) (TextValue (text res))))
            (log st ++ [mkExchange req res]).
Proof.
  intros req res Hfail Hpend.
  apply failing_status in Hfail. destruct Hfail as [N200 N308].
  destruct fuel; simpl; fold req; fold res;
    rewrite ok_200, N200, N308; unfold reject, settle; simpl; rewrite Hpend;
    reflexivity.
Qed.

(** Refused attempts are passed over one by one. *)
Lemma upload_skips_refusals env location dataSize dataChunk k :
  forall fuel upCount st,
    (upCount + fuel = 3)%nat ->
    (k <= fuel)%nat ->
    let req := put_request location dataSize (startByte st) dataChunk in
    let rs := attempts env req (log st) k in
    Forall failing rs ->
    upload env location dataSize dataChunk fuel upCount st
    = upload env location dataSize dataChunk (fuel - k) (upCount + k)
             (with_log (log st ++ map (mkExchange req) rs) st).
Proof.
  induction k as [|k IH]; intros fuel upCount st Hsum Hle req rs Hfail.
  - unfold rs. simpl. rewrite app_nil_r, Nat.sub_0_r, Nat.add_0_r.
    destruct st; reflexivity.
  - destruct fuel as [|fuel]; [lia|].
    unfold rs in *. simpl in Hfail. fold req in Hfail.
    set (r := fetch env (log st) req) in *.
    inversion Hfail as [|? ? Hr Hrest]; subst.
    apply failing_status in Hr. destruct Hr as [N200 N308].
    assert (N3 : (upCount =? 3)%nat = false) by (apply Nat.eqb_neq; lia).
    simpl upload at 1. fold req. fold r.
    rewrite ok_200, N200, N308, N3.
    rewrite (IH fuel (S upCount) (record req r st)) by (simpl; lia || exact Hrest).
    simpl. fold req. fold r.
    replace (upCount + S k)%nat with (S (upCount + k)) by lia.
    unfold with_log. simpl. rewrite <- app_assoc. reflexivity.
Qed.

(** ** The handlers keep the invariant *)

Section StreamFacts.

Variable env : Env.
Variable location : option string.
Variable dataSize chunkSize : Z.
Variable content : Buffer.

Local Notation CE := (chunk_exchange env location dataSize content).
Local Notation put := (put_request location dataSize).

(** The exchanges of one call of [upload], started where the list of
    exchanges does not end with an open chunk. *)
Lemma upload_segment (dataChunk : Buffer) (st : State) (rest : Buffer)
      (fails : list Response) (last : Response) :
  let req := put (startByte st) dataChunk in
  let seg := map (mkExchange req) (fails ++ [last]) in
  Hist CE (log st) ->
  startByte st = confirmed (log st) ->
  last_continues (log st) ->
  accepted_bytes (log st) ++ dataChunk ++ rest = content ->
  Forall failing fails ->
  Hist (fun pre r => r = fetch env (log st ++ map (mkExchange req) pre) req)
       (fails ++ [last]) ->
  Hist CE (log st ++ seg)
  /\ final (log st ++ seg) = Some (mkExchange req last)
  /\ confirmed (log st ++ seg)
     = confirmed (log st)
       + (if status last =? 308 then blen dataChunk else 0)
  /\ accepted_bytes (log st ++ seg)
     = accepted_bytes (log st)
       ++ (if (status last =? 308) || (status last =? 200)
           then dataChunk else [])
  /\ Forall (fun e => is_put e = true /\ chunk_of e = dataChunk) seg.
Proof.
  intros req seg Hhist Hstart Hlast Hcontent Hfails Horacle.
  assert (Hput : method req = PUT) by reflexivity.
  destruct (refused_attempts req fails Hput Hfails) as (Hc0 & Ha0 & _).
  assert (Hseg : seg = map (mkExchange req) fails ++ [mkExchange req last]).
  { unfold seg. rewrite map_app. reflexivity. }
  split; [|split; [|split; [|split]]].
  - apply Hist_app; [exact Hhist|].
    intros pre x post E. unfold seg in E.
    apply map_eq_app in E as (rs1 & rs2' & Ers & <- & E2).
    apply map_eq_cons in E2 as (r & rs2 & -> & <- & _).
    destruct (prefix_of_attempts _ _ _ _ _ Ers) as [tl Htl].
    assert (Hrs1 : Forall failing rs1).
    { rewrite Htl in Hfails. apply Forall_app in Hfails. tauto. }
    destruct (refused_attempts req rs1 Hput Hrs1) as (Hc1 & Ha1 & Hr1).
    split.
    + intros e1 Hfin Hput1.
      destruct rs1 as [|r1 rs1 _] using rev_ind.
      * simpl in Hfin. rewrite app_nil_r in Hfin. left.
        exact (Hlast _ Hfin Hput1).
      * rewrite map_app in Hfin, Hr1. simpl in Hfin.
        rewrite app_assoc, final_snoc in Hfin. injection Hfin as <-.
        right. apply Forall_app in Hr1. destruct Hr1 as [_ Hr1].
        inversion Hr1; subst. split; [assumption | reflexivity].
    + intros _. simpl. split; [|split].
      * rewrite confirmed_app, Hc1, Z.add_0_r, <- Hstart. reflexivity.
      * exact (Horacle _ _ _ Ers).
      * exists rest. rewrite accepted_bytes_app, Ha1, app_nil_r.
        exact Hcontent.
  - rewrite Hseg, app_assoc. apply final_snoc.
  - rewrite Hseg, !confirmed_app, Hc0, Z.add_0_l. f_equal.
    unfold confirmed, continued. simpl.
    destruct (status last =? 308); simpl; [rewrite app_nil_r|]; reflexivity.
  - rewrite Hseg, !accepted_bytes_app, Ha0. simpl. f_equal.
    unfold accepted_bytes, accepted, continued, completed. simpl.
    destruct ((status last =? 308) || (status last =? 200)); simpl;
      [rewrite app_nil_r|]; reflexivity.
  - unfold seg. apply Forall_map. apply Forall_forall.
    intros r _. split; reflexivity.
Qed.

(** What a whole call of [upload] does to the invariant's facts. *)
Lemma upload_inv (dataChunk : Buffer) (st : State) (rest : Buffer) :
  Hist CE (log st) ->
  startByte st = confirmed (log st) ->
  promise st = Pending ->
  last_continues (log st) ->
  accepted_bytes (log st) ++ dataChunk ++ rest = content ->
  let st' := upload env location dataSize dataChunk 3 0 st in
  exists seg,
    log st' = log st ++ seg
    /\ seg <> []
    /\ Forall (fun e => is_put e = true /\ chunk_of e = dataChunk) seg
    /\ Hist CE (log st')
    /\ startByte st' = confirmed (log st')
    /\ promise st' = verdict env (log st')
    /\ bufferData st' = bufferData st
    /\ ((flowing st' = true
         /\ last_continues (log st')
         /\ accepted_bytes (log st') = accepted_bytes (log st) ++ dataChunk)
        \/ (flowing st' = flowing st
            /\ (exists e, final (log st') = Some e /\ completed e = true)
            /\ accepted_bytes (log st')
               = accepted_bytes (log st) ++ dataChunk)
        \/ (flowing st' = flowing st
            /\ (exists e, final (log st') = Some e /\ refused e = true)
            /\ accepted_bytes (log st') = accepted_bytes (log st))).
Proof.
  intros Hhist Hstart Hpend Hlast Hcontent st'.
  destruct (upload_spec env location dataSize dataChunk 3 0 st eq_refl)
    as (fails & last & Hspec).
  cbv zeta in Hspec. destruct Hspec as (Hfails & Horacle & Hend).
  fold st' in Hend.
  destruct (upload_segment dataChunk st rest fails last
              Hhist Hstart Hlast Hcontent Hfails Horacle)
    as (Hh & Hfin & Hconf & Hacc & Hall).
  set (req := put (startByte st) dataChunk) in *.
  set (seg := map (mkExchange req) (fails ++ [last])) in *.
  exists seg.
  assert (Hne : seg <> []).
  { unfold seg. destruct fails; discriminate. }
  destruct Hend as [[H200 ->] | [[H308 ->] | [[Hfail ->] _]]].
  - unfold resolve. rewrite log_settle, startByte_settle,
      bufferData_settle, flowing_settle, promise_settle by exact Hpend.
    simpl. rewrite H200 in Hconf, Hacc. simpl in Hconf, Hacc.
    conjs; try assumption; try reflexivity.
    + rewrite Hconf, Z.add_0_r. exact Hstart.
    + unfold verdict. rewrite Hfin. unfold completed. simpl.
      rewrite H200. reflexivity.
    + right. left. conjs; [reflexivity| |exact Hacc].
      exists (mkExchange req last). split; [exact Hfin|].
      unfold completed. simpl. rewrite H200. reflexivity.
  - simpl. rewrite H308 in Hconf, Hacc. simpl in Hconf, Hacc.
    assert (Hlc : last_continues (log st ++ seg)).
    { intros e He _. rewrite Hfin in He. injection He as <-.
      unfold continued. simpl. rewrite H308. reflexivity. }
    conjs; try assumption; try reflexivity.
    + rewrite Hconf, Hstart. reflexivity.
    + rewrite (verdict_continues env _ Hlc). exact Hpend.
    + left. conjs; [reflexivity|assumption|assumption].
  - unfold reject. rewrite log_settle, startByte_settle,
      bufferData_settle, flowing_settle, promise_settle by exact Hpend.
    simpl. apply failing_status in Hfail. destruct Hfail as [N200 N308].
    rewrite N308 in Hconf. rewrite N200, N308 in Hacc.
    simpl in Hconf, Hacc. rewrite app_nil_r in Hacc.
    conjs; try assumption; try reflexivity.
    + rewrite Hconf, Z.add_0_r. exact Hstart.
    + unfold verdict. rewrite Hfin. unfold completed, refused. simpl.
      rewrite N200, N308. reflexivity.
    + right. right. conjs; [reflexivity| |exact Hacc].
      exists (mkExchange req last). split; [exact Hfin|].
      unfold refused. simpl. rewrite N200, N308. reflexivity.
Qed.

Local Notation INV := (Inv env location dataSize chunkSize content).

Lemma completed_not_continued e :
  completed e = true -> is_put e = true /\ continued e = false.
Proof.
  unfold completed, continued. intros H.
  apply andb_true_iff in H as [-> H]. apply Z.eqb_eq in H.
  rewrite H. split; reflexivity.
Qed.

Lemma refused_not_continued e :
  refused e = true -> is_put e = true /\ continued e = false.
Proof.
  unfold refused, continued. intros H.
  apply andb_true_iff in H as [H H308].
  apply andb_true_iff in H as [-> _].
  apply negb_true_iff in H308. rewrite H308. split; reflexivity.
Qed.

(** A paused stream says nothing about the fragments that remain. *)
Lemma Inv_paused remaining remaining' st :
  flowing st = false -> INV remaining st -> INV remaining' st.
Proof.
  intros Hp [Hh Hs Hv Hf Hpa [pend [Hc _]] Hsz].
  constructor; try assumption.
  exists pend. split; [exact Hc|]. rewrite Hp. discriminate.
Qed.

(** One ["data"] event. *)
Lemma on_data_inv chunk rest st :
  INV (chunk :: rest) st ->
  flowing st = true ->
  INV rest (on_data env location dataSize chunkSize chunk st).
Proof.
  intros [Hh Hs Hv Hf Hpa [pend [Hc Hpend]] Hsz] Hflow.
  specialize (Hf Hflow). specialize (Hpend Hflow).
  unfold on_data. cbv zeta.
  change (bufferData (set_bufferData (bufferData st ++ [chunk]) st))
    with (bufferData st ++ [chunk]).
  set (temp := Buffer_concat (bufferData st ++ [chunk])).
  assert (Htemp : temp = Buffer_concat (bufferData st) ++ chunk).
  { unfold temp, Buffer_concat. rewrite concat_app. simpl.
    rewrite app_nil_r. reflexivity. }
  assert (Hall : accepted_bytes (log st) ++ temp ++ Buffer_concat rest
                 = content).
  { rewrite Htemp, <- Hc, Hpend. unfold Buffer_concat. simpl.
    rewrite <- !app_assoc. reflexivity. }
  destruct (chunkSize <=? blen temp) eqn:Hfull.
  - apply Z.leb_le in Hfull.
    set (dataChunk := slice temp 0 (Some chunkSize)).
    set (left := slice temp chunkSize None).
    assert (Hcut : dataChunk ++ left = temp) by apply slice_split.
    set (st2 := pause (set_bufferData (bufferData st ++ [chunk]) st)).
    assert (Hpending : promise st2 = Pending).
    { simpl. rewrite Hv. apply verdict_continues. exact Hf. }
    destruct (upload_inv dataChunk st2 (left ++ Buffer_concat rest))
      as (seg & Hlog & Hne & Hseg & Hh' & Hs' & Hv' & _ & Hend);
      try assumption.
    { simpl. rewrite (app_assoc dataChunk), Hcut. exact Hall. }
    set (st3 := upload env location dataSize dataChunk 3 0 st2) in *.
    simpl in Hlog, Hend.
    constructor; simpl; try assumption.
    + intros Hfl. destruct Hend as [(_ & Hlc & _) | [(Hp & _) | (Hp & _)]];
        [exact Hlc | congruence | congruence].
    + intros Hfl.
      destruct Hend as [(Ht & _) | [(_ & [e [He Hd]] & _)
                                   | (_ & [e [He Hr]] & _)]].
      * congruence.
      * exists e. split; [exact He|]. apply completed_not_continued, Hd.
      * exists e. split; [exact He|]. apply refused_not_continued, Hr.
    + destruct Hend as [(_ & _ & Ha) | [(Hp & _ & Ha) | (Hp & _ & Ha)]].
      * exists (left ++ Buffer_concat rest). rewrite Ha. split.
        -- rewrite <- app_assoc, (app_assoc dataChunk), Hcut. exact Hall.
        -- intros _. unfold Buffer_concat at 1. simpl.
           rewrite app_nil_r. reflexivity.
      * exists (left ++ Buffer_concat rest). rewrite Ha. split.
        -- rewrite <- app_assoc, (app_assoc dataChunk), Hcut. exact Hall.
        -- rewrite Hp. discriminate.
      * exists (temp ++ Buffer_concat rest). rewrite Ha. split.
        -- exact Hall.
        -- rewrite Hp. discriminate.
    + intros Hpos. rewrite Hlog. apply Forall_app. split.
      * exact (Hsz Hpos).
      * eapply Forall_impl; [|exact Hseg].
        intros e [_ ->] _. apply slice_head_length; assumption.
  - constructor; simpl; try assumption; [intros _; exact Hf|].
    exists pend. split; [exact Hc|]. intros _.
    fold temp. rewrite Htemp, Hpend. unfold Buffer_concat. simpl.
    rewrite <- app_assoc. reflexivity.
Qed.

(** The ["data"] events of the fragments [front], [rest] being left. *)
Lemma emit_data_inv_app front rest st :
  INV (front ++ rest) st ->
  INV rest (emit_data env location dataSize chunkSize front st).
Proof.
  revert st. induction front as [|chunk front IH]; intros st HI; simpl.
  - exact HI.
  - destruct (flowing st) eqn:Hflow.
    + apply IH. apply on_data_inv; assumption.
    + eapply Inv_paused; eassumption.
Qed.

(** All ["data"] events. *)
Lemma emit_data_inv mainData st :
  INV mainData st ->
  INV [] (emit_data env location dataSize chunkSize mainData st).
Proof.
  intros HI. apply emit_data_inv_app. rewrite app_nil_r. exact HI.
Qed.

(** The ["end"] event. *)
Lemma on_end_inv st :
  INV [] st ->
  flowing st = true ->
  let st' := on_end env location dataSize st in
  Hist CE (log st')
  /\ startByte st' = confirmed (log st')
  /\ promise st' = verdict env (log st')
  /\ accepted_bytes (log st) ++ Buffer_concat (bufferData st) = content
  /\ (exists seg,
        log st' = log st ++ seg
        /\ (Buffer_concat (bufferData st) <> [] -> seg <> [])
        /\ Forall (fun e => is_put e = true
                            /\ chunk_of e = Buffer_concat (bufferData st)
                            /\ chunk_of e <> []) seg)
  /\ (((exists e, final (log st') = Some e /\ refused e = true)
       /\ accepted_bytes (log st') = accepted_bytes (log st))
      \/ accepted_bytes (log st') = content).
Proof.
  intros [Hh Hs Hv Hf Hpa [pend [Hc Hpend]] Hsz] Hflow st'.
  specialize (Hf Hflow). specialize (Hpend Hflow).
  assert (Hall : accepted_bytes (log st) ++ Buffer_concat (bufferData st)
                 = content).
  { rewrite <- Hc, Hpend. unfold Buffer_concat at 3. simpl.
    rewrite app_nil_r. reflexivity. }
  unfold st', on_end. cbv zeta.
  set (dataChunk := Buffer_concat (bufferData st)) in *.
  destruct (0 <? blen dataChunk) eqn:Hsome.
  - apply Z.ltb_lt in Hsome.
    assert (Hne : dataChunk <> []).
    { intros E. rewrite E in Hsome. discriminate. }
    destruct (upload_inv dataChunk st [])
      as (seg & Hlog & Hsome' & Hseg & Hh' & Hs' & Hv' & _ & Hend);
      try assumption.
    { rewrite Hv. apply verdict_continues. exact Hf. }
    { rewrite app_nil_r. exact Hall. }
    conjs; try assumption.
    + exists seg. split; [exact Hlog|]. split; [intros _; exact Hsome'|].
      eapply Forall_impl; [|exact Hseg].
      intros e [Hp He]. rewrite He. conjs; [exact Hp|reflexivity|exact Hne].
    + destruct Hend as [(_ & _ & Ha) | [(_ & _ & Ha) | (_ & He & Ha)]].
      * right. rewrite Ha. exact Hall.
      * right. rewrite Ha. exact Hall.
      * left. split; [exact He | exact Ha].
  - apply Z.ltb_ge in Hsome.
    assert (E : dataChunk = []).
    { apply blen_nil_iff. pose proof (blen_nonneg dataChunk). lia. }
    conjs; try assumption.
    + exists []. split; [rewrite app_nil_r; reflexivity|].
      split; [congruence | constructor].
    + right. rewrite E, app_nil_r in Hall. exact Hall.
Qed.

(** The state the upload starts from. *)
Lemma initial_inv log0 mainData :
  Forall (fun e => is_put e = false) log0 ->
  content = Buffer_concat mainData ->
  INV mainData (initial log0).
Proof.
  intros Hno Hcontent.
  assert (Hnc : Forall (fun e => continued e = false) log0).
  { eapply Forall_impl; [|exact Hno]. intros e He.
    unfold continued. rewrite He. reflexivity. }
  assert (Hna : Forall (fun e => accepted e = false) log0).
  { eapply Forall_impl; [|exact Hno]. intros e He.
    unfold accepted, continued, completed. rewrite He. reflexivity. }
  assert (Hlast : forall pre e, final pre = Some e ->
                                (exists tl, log0 = pre ++ tl) ->
                                is_put e = true -> False).
  { intros pre e Hfin [tl Htl] Hput.
    apply final_inv in Hfin as [pre' ->].
    rewrite Htl in Hno. apply Forall_app in Hno as [Hno _].
    apply Forall_app in Hno as [_ Hno]. inversion Hno; subst. congruence. }
  constructor; simpl.
  - intros pre x post E. split.
    + intros e1 Hfin Hput. exfalso.
      apply (Hlast pre e1 Hfin); [|exact Hput].
      exists (x :: post). exact E.
    + intros Hput. exfalso. rewrite E in Hno.
      apply Forall_app in Hno as [_ Hno]. inversion Hno; subst. congruence.
  - unfold confirmed. rewrite (filter_none _ _ Hnc). reflexivity.
  - symmetry. apply verdict_continues. intros e Hfin Hput. exfalso.
    apply (Hlast log0 e Hfin); [|exact Hput].
    exists []. rewrite app_nil_r. reflexivity.
  - intros _ e Hfin Hput. exfalso.
    apply (Hlast log0 e Hfin); [|exact Hput].
    exists []. rewrite app_nil_r. reflexivity.
  - discriminate.
  - exists (Buffer_concat mainData). unfold accepted_bytes.
    rewrite (filter_none _ _ Hna). simpl. split; [congruence|].
    intros _. reflexivity.
  - intros _. eapply Forall_impl; [|exact Hno].
    intros e He Hput. congruence.
Qed.

(** All events of a stream whose handlers run in turn. *)
Lemma in_turn_inv mainData st :
  INV mainData st ->
  let st' := in_turn env location dataSize chunkSize mainData st in
  Hist CE (log st')
  /\ startByte st' = confirmed (log st')
  /\ promise st' = verdict env (log st')
  /\ (exists pend, accepted_bytes (log st') ++ pend = content)
  /\ ((exists e, final (log st') = Some e
                 /\ is_put e = true /\ continued e = false)
      \/ accepted_bytes (log st') = content).
Proof.
  intros HI st'. apply emit_data_inv in HI.
  unfold st', in_turn. cbv zeta.
  set (st1 := emit_data env location dataSize chunkSize mainData st) in *.
  destruct (flowing st1) eqn:Hflow.
  - destruct (on_end_inv st1 HI Hflow)
      as (Hh & Hs & Hv & Hall & (seg & Hlog & _ & Hseg) & Hend).
    conjs; try assumption.
    + destruct Hend as [[_ Ha] | Ha].
      * exists (Buffer_concat (bufferData st1)). rewrite Ha. exact Hall.
      * exists []. rewrite app_nil_r. exact Ha.
    + destruct Hend as [[[e [He Hr]] _] | Ha]; [left | right; exact Ha].
      exists e. split; [exact He|]. apply refused_not_continued, Hr.
  - destruct HI as [Hh Hs Hv _ Hpa [pend [Hc _]] _].
    conjs; try assumption.
    + exists pend. exact Hc.
    + left. exact (Hpa Hflow).
Qed.

End StreamFacts.

(** ** The handlers: offset, traffic, buffer *)




Lemma on_data_attempts env location dataSize chunkSize chunk st :
  exists segs,
    log (on_data env location dataSize chunkSize chunk st)
    = log st ++ List.concat segs
    /\ Forall attempt_segment segs.
Proof.
  unfold on_data. cbv zeta.
  destruct (chunkSize <=? _).
  - match goal with
    | |- context [upload _ _ _ ?c 3 0 ?s] =>
        destruct (upload_attempts env location dataSize c s)
          as (seg & Hlog & Hseg & _)
    end.
    exists [seg]. simpl. rewrite app_nil_r. split; [exact Hlog|].
    constructor; [exact Hseg | constructor].
  - exists []. simpl. rewrite app_nil_r. split; [reflexivity | constructor].
Qed.

Lemma emit_data_attempts env location dataSize chunkSize mainData st :
  exists segs,
    log (emit_data env location dataSize chunkSize mainData st)
    = log st ++ List.concat segs
    /\ Forall attempt_segment segs.
Proof.
  revert st. induction mainData as [|chunk rest IH]; intros st; simpl.
  - exists []. simpl. rewrite app_nil_r. split; [reflexivity | constructor].
  - destruct (flowing st).
    + destruct (on_data_attempts env location dataSize chunkSize chunk st)
        as (segs1 & Hlog1 & Hs1).
      destruct (IH (on_data env location dataSize chunkSize chunk st))
        as (segs2 & Hlog2 & Hs2).
      exists (segs1 ++ segs2). rewrite Hlog2, Hlog1, concat_app, app_assoc.
      split; [reflexivity|]. apply Forall_app. split; assumption.
    + exists []. simpl. rewrite app_nil_r. split; [reflexivity | constructor].
Qed.

Lemma on_data_log_length env location dataSize chunkSize chunk st :
  (List.length (log (on_data env location dataSize chunkSize chunk st))
   <= List.length (log st) + 4)%nat.
Proof.
  unfold on_data. cbv zeta. destruct (chunkSize <=? _); [|simpl; lia].
  match goal with
  | |- (List.length (log (set_bufferData ?l ?x)) <= _)%nat =>
      change (log (set_bufferData l x)) with (log x)
  end.
  eapply Nat.le_trans; [apply upload_log_length|]. simpl. lia.
Qed.

Lemma emit_data_log_length env location dataSize chunkSize mainData st :
  (List.length (log (emit_data env location dataSize chunkSize mainData st))
   <= List.length (log st) + 4 * List.length mainData)%nat.
Proof.
  revert st. induction mainData as [|chunk rest IH]; intros st.
  - simpl. lia.
  - cbn [emit_data]. destruct (flowing st).
    + eapply Nat.le_trans; [apply IH|].
      pose proof (on_data_log_length env location dataSize chunkSize chunk st).
      cbn [List.length]. lia.
    + cbn [List.length]. lia.
Qed.



(** ** Events *)

Lemma answers_app tr tr' : answers (tr ++ tr') = answers tr ++ answers tr'.
Proof. unfold answers. apply flat_map_app. Qed.

Lemma sent_requests_app tr tr' :
  sent_requests (tr ++ tr') = sent_requests tr ++ sent_requests tr'.
Proof. unfold sent_requests. apply flat_map_app. Qed.

Lemma acknowledged_app tr tr' :
  acknowledged (tr ++ tr') = acknowledged tr + acknowledged tr'.
Proof. unfold acknowledged. rewrite answers_app. apply confirmed_app. Qed.

Lemma acknowledged_sent req tr :
  acknowledged (Sent req :: tr) = acknowledged tr.
Proof. reflexivity. Qed.

Lemma acknowledged_nil : acknowledged [] = 0.
Proof. reflexivity. Qed.

(** The answers of handlers that run in turn arrive in the order of the
    requests. *)
Lemma answers_in_turn l : answers (in_turn_events l) = l.
Proof.
  induction l as [|e l IH]; simpl; [reflexivity|].
  f_equal. exact IH.
Qed.

Lemma sent_requests_in_turn l :
  sent_requests (in_turn_events l) = map sent l.
Proof.
  induction l as [|e l IH]; simpl; [reflexivity|].
  f_equal. exact IH.
Qed.

Lemma acknowledged_in_turn l : acknowledged (in_turn_events l) = confirmed l.
Proof. unfold acknowledged. rewrite answers_in_turn. reflexivity. Qed.

(** A request among the events of handlers that run in turn. *)
Lemma in_turn_events_split l a req b :
  in_turn_events l = a ++ Sent req :: b ->
  exists pre x post,
    l = pre ++ x :: post /\ a = in_turn_events pre /\ req = sent x.
Proof.
  revert a. induction l as [|x l IH]; intros a E; simpl in E.
  - destruct a; discriminate.
  - destruct a as [|ev a]; simpl in E.
    + injection E as <- _. exists [], x, l. conjs; reflexivity.
    + injection E as <- E. destruct a as [|ev a]; simpl in E; [discriminate|].
      injection E as <- E.
      destruct (IH _ E) as (pre & y & post & -> & -> & ->).
      exists (x :: pre), y, post. conjs; reflexivity.
Qed.

Lemma well_sent_in_turn env location dataSize content l :
  Hist (chunk_exchange env location dataSize content) l ->
  well_sent location dataSize (in_turn_events l).
Proof.
  intros Hh a req b E Hput.
  destruct (in_turn_events_split _ _ _ _ E) as (pre & x & post & El & -> & ->).
  destruct (Hh _ _ _ El) as [_ Hce].
  rewrite acknowledged_in_turn. apply Hce.
  unfold is_put. rewrite Hput. reflexivity.
Qed.

(** Events that follow keep what was sent before as it is. *)
Lemma well_sent_app location dataSize tr tr' :
  well_sent location dataSize tr ->
  (forall a req b,
      tr' = a ++ Sent req :: b -> method req = PUT ->
      req = put_request location dataSize (acknowledged (tr ++ a))
                        (payload req)) ->
  well_sent location dataSize (tr ++ tr').
Proof.
  intros H1 H2 a req b E Hput.
  destruct (app_cons_split _ _ _ _ _ E) as [[p1 [E1 _]]|[p2 [-> E2]]].
  - exact (H1 _ _ _ E1 Hput).
  - exact (H2 _ _ _ E2 Hput).
Qed.

(** ** Closures that wait side by side *)

Section FlightFacts.

Variable env : Env.
Variable location : option string.
Variable dataSize : Z.

Local Notation put := (put_request location dataSize).
Local Notation on_answer' := (on_answer env location dataSize).

(** What an answer does, whichever way it is taken. *)
Lemma on_answer_facts (c : Closure) (st st' : State) (next : option Closure) :
  on_answer' c st = (st', next) ->
  is_put (cl_pending c) = true ->
  chunk_of (cl_pending c) = cl_chunk c ->
  log st' = log st ++ match next with
                      | Some c' => [cl_pending c']
                      | None => []
                      end
  /\ startByte st'
     = startByte st
       + (if continued (cl_pending c) then blen (chunk_of (cl_pending c))
          else 0)
  /\ bufferData st' = bufferData st
  /\ (promise st' = promise st
      \/ (completed (cl_pending c) = true
          /\ promise st'
             = Resolved (parse_or_text env (text (received (cl_pending c)))))
      \/ exists f, promise st' = Rejected f)
  /\ match next with
     | Some c' =>
         cl_chunk c' = cl_chunk c
         /\ cl_upCount c' = S (cl_upCount c)
         /\ cl_upCount c <> 3%nat
         /\ cl_pending c'
            = mkExchange (put (startByte st) (cl_chunk c))
                         (fetch env (log st) (put (startByte st) (cl_chunk c)))
         /\ continued (cl_pending c) = false
     | None => True
     end.
Proof.
  intros E Hput Hchunk. unfold on_answer in E. cbv zeta in E.
  unfold continued, completed. rewrite Hput, Hchunk. simpl andb.
  rewrite ok_200 in E.
  destruct (status (received (cl_pending c)) =? 200) eqn:E200.
  { injection E as <- <-.
    assert (N308 : (status (received (cl_pending c)) =? 308) = false).
    { apply Z.eqb_eq in E200. rewrite E200. reflexivity. }
    rewrite N308. unfold resolve.
    rewrite log_settle, startByte_settle, bufferData_settle, app_nil_r.
    conjs; try reflexivity; try lia.
    unfold settle. destruct (promise st) eqn:Hp; simpl.
    - right. left. split; reflexivity.
    - left. congruence.
    - left. congruence. }
  destruct (status (received (cl_pending c)) =? 308) eqn:E308.
  { injection E as <- <-. simpl. rewrite app_nil_r.
    conjs; try reflexivity. left. reflexivity. }
  destruct (cl_upCount c =? 3)%nat eqn:E3.
  { injection E as <- <-. unfold reject.
    rewrite log_settle, startByte_settle, bufferData_settle, app_nil_r.
    conjs; try reflexivity; try lia.
    unfold settle. destruct (promise st) eqn:Hp; simpl.
    - right. right. eexists. reflexivity.
    - left. congruence.
    - left. congruence. }
  injection E as <- <-. simpl. apply Nat.eqb_neq in E3.
  conjs; try reflexivity; try lia; try assumption.
  left. reflexivity.
Qed.

Lemma step_cases left n f f' :
  step env location dataSize left n f = Some f' ->
  (exists c, f_data f = Some c
             /\ f' = data_step env location dataSize left c f)
  \/ (exists c, f_end f = Some c /\ f' = end_step env location dataSize c f).
Proof.
  unfold step. destruct (f_data f) as [cd|], (f_end f) as [ce|];
    [destruct (data_answer_first env n)| | |]; intros [= <-];
    try (left; eexists; split; reflexivity);
    try (right; eexists; split; reflexivity).
Qed.

(** What every answer keeps is kept to the end. *)
Lemma flight_ind (P : Flight -> Prop) left :
  (forall f c, P f -> f_data f = Some c ->
               P (data_step env location dataSize left c f)) ->
  (forall f c, P f -> f_end f = Some c ->
               P (end_step env location dataSize c f)) ->
  forall fuel n f, P f -> P (flight env location dataSize left fuel n f).
Proof.
  intros Hd He. induction fuel as [|fuel IH]; intros n f Hf; simpl;
    [exact Hf|].
  destruct (step env location dataSize left n f) as [f'|] eqn:Hstep;
    [|exact Hf].
  apply IH.
  destruct (step_cases _ _ _ _ Hstep) as [(c & Hc & ->) | (c & Hc & ->)];
    [apply Hd | apply He]; assumption.
Qed.

(** A closure that waits alone goes the way of [upload]: the call of
    [upload] is its first request and then its answers, one by one. *)
Lemma upload_by_steps left (dataChunk : Buffer) :
  forall fuel upCount n st tr,
    (upCount + fuel = 3)%nat ->
    let req := put (startByte st) dataChunk in
    let res := fetch env (log st) req in
    let c := mkClosure dataChunk upCount (mkExchange req res) in
    f_state (flight env location dataSize left (S fuel) n
                    (mkFlight None (Some c) (record req res st) tr))
    = upload env location dataSize dataChunk fuel upCount st.
Proof.
  assert (Hdone : forall fuel n st ev,
             f_state (flight env location dataSize left fuel n
                             (mkFlight None None st ev)) = st).
  { intros fuel n st ev. destruct fuel; reflexivity. }
  induction fuel as [|fuel IH]; intros upCount n st tr Hsum req res c;
    subst c;
    cbn [flight step f_data f_end]; unfold end_step, on_answer;
    cbn [f_state f_events f_data cl_pending cl_chunk cl_upCount received];
    cbn [upload]; fold req; fold res;
    (destruct (ok res && (status res =? 200));
     [cbn [f_state]; try apply Hdone; reflexivity|]);
    (destruct (status res =? 308);
     [cbn [f_state]; try apply Hdone; reflexivity|]);
    (destruct (upCount =? 3)%nat eqn:E3;
     [cbn [f_state]; try apply Hdone; reflexivity|]);
    apply Nat.eqb_neq in E3.
  - lia.
  - apply (IH (S upCount) (S n) (record req res st)). lia.
Qed.



Lemma waiting_app l l' c : waiting l c -> waiting (l ++ l') c.
Proof.
  intros (Hin & H). split; [apply in_or_app; left; exact Hin | exact H].
Qed.

Section Invariants.

Variable l0 : list Exchange.
Variable s0 : Z.
Variable cD cE : Buffer.
Variable bound : nat.

Local Notation FL := (FlightLog l0 s0 cD cE bound).
Local Notation FE := (FlightEvents env location dataSize).

(** An answer to either closure, [who] telling which, and the state [st'']
    the handler leaves, which differs from the closure's in [bufferData]
    at most. *)
Lemma answer_log (who : bool) (c : Closure) (f : Flight)
      (st' st'' : State) (next : option Closure) :
  FL f ->
  (if who then f_data f else f_end f) = Some c ->
  on_answer' c (f_state f) = (st', next) ->
  log st'' = log st' -> startByte st'' = startByte st' ->
  FL (mkFlight (if who then next else f_data f)
               (if who then f_end f else next)
               st'' (f_events f ++ arrival c next)).
Proof.
  intros [(puts & Hlog & Hputs & Hbound) Hd He Hs] Hc E Hl Hsb.
  assert (Hw : waiting (log (f_state f)) c
               /\ (cl_chunk c = cD \/ cl_chunk c = cE)).
  { destruct who; [destruct (Hd c Hc) | destruct (He c Hc)]; tauto. }
  destruct Hw as [(Hin & Hput & Hchunk & Hup) Hwhich].
  destruct (on_answer_facts c _ _ _ E Hput Hchunk)
    as (Hlog' & Hstart' & _ & _ & Hnext).
  assert (Hkeep : forall c2, waiting (log (f_state f)) c2 ->
                             waiting (log st'') c2).
  { intros c2 H2. rewrite Hl, Hlog'. apply waiting_app. exact H2. }
  assert (Hnew : forall c', next = Some c' ->
                            waiting (log st'') c' /\ cl_chunk c' = cl_chunk c).
  { intros c' ->. destruct Hnext as (Hch & Hcnt & H3 & Hpend & _).
    split; [|exact Hch]. rewrite Hl, Hlog'. unfold waiting. conjs.
    - apply in_or_app. right. left. reflexivity.
    - rewrite Hpend. reflexivity.
    - rewrite Hpend, Hch. reflexivity.
    - lia. }
  constructor; simpl.
  - exists (puts ++ match next with
                    | Some c' => [cl_pending c']
                    | None => []
                    end).
    rewrite Hl, Hlog', Hlog, app_assoc. split; [reflexivity|]. split.
    + apply Forall_app. split; [exact Hputs|].
      destruct next as [c'|]; [|constructor].
      destruct (Hnew c' eq_refl) as [(_ & Hp' & Hc' & _) Hch].
      constructor; [|constructor]. split; [exact Hp'|].
      rewrite Hc', Hch. exact Hwhich.
    + rewrite length_app.
      assert (Hr : (match next with
                    | Some _ => 1
                    | None => 0
                    end + retries next <= retries (Some c))%nat).
      { unfold retries. destruct next as [c'|]; [|lia].
        destruct Hnext as (_ & Hcnt & H3 & _). lia. }
      destruct who; rewrite Hc in Hbound;
        destruct next as [c'|]; cbn [List.length] in *; lia.
  - intros c2 H2. destruct who.
    + subst next. destruct (Hnew c2 eq_refl) as [Hw2 Hch]. split; [exact Hw2|].
      rewrite Hch. destruct (Hd c Hc) as [_ Hx]. exact Hx.
    + destruct (Hd c2 H2) as [Hw2 Hx]. split; [apply Hkeep, Hw2 | exact Hx].
  - intros c2 H2. destruct who.
    + destruct (He c2 H2) as [Hw2 Hx]. split; [apply Hkeep, Hw2 | exact Hx].
    + subst next. destruct (Hnew c2 eq_refl) as [Hw2 Hch]. split; [exact Hw2|].
      rewrite Hch. destruct (He c Hc) as [_ Hx]. exact Hx.
  - rewrite Hsb, Hstart'. pose proof (blen_nonneg (chunk_of (cl_pending c))).
    destruct (continued _); lia.
Qed.

Lemma answer_events (who : bool) (c : Closure) (f : Flight)
      (st' st'' : State) (next : option Closure) :
  FL f -> FE f ->
  (if who then f_data f else f_end f) = Some c ->
  on_answer' c (f_state f) = (st', next) ->
  log st'' = log st' -> startByte st'' = startByte st' ->
  promise st'' = promise st' ->
  FE (mkFlight (if who then next else f_data f)
               (if who then f_end f else next)
               st'' (f_events f ++ arrival c next)).
Proof.
  intros [_ Hd He _] [Hack Hsent Hreq Hres] Hc E Hl Hsb Hpr.
  assert (Hw : waiting (log (f_state f)) c).
  { destruct who; [destruct (Hd c Hc) | destruct (He c Hc)]; tauto. }
  destruct Hw as (Hin & Hput & Hchunk & Hup).
  destruct (on_answer_facts c _ _ _ E Hput Hchunk)
    as (Hlog' & Hstart' & _ & Hprom & Hnext).
  assert (Hone : acknowledged [Answered (cl_pending c)]
                 = if continued (cl_pending c)
                   then blen (chunk_of (cl_pending c)) else 0).
  { unfold acknowledged, confirmed. simpl.
    destruct (continued (cl_pending c)); simpl;
      [rewrite app_nil_r|]; reflexivity. }
  constructor; simpl.
  - rewrite Hsb, Hstart', Hack, acknowledged_app. f_equal.
    symmetry. unfold arrival. destruct next; exact Hone.
  - apply well_sent_app; [exact Hsent|].
    intros a req b Ea Hm. unfold arrival in Ea.
    destruct next as [c'|].
    + destruct a as [|ev a]; [discriminate|]. injection Ea as <- Ea.
      destruct a as [|ev a]; [|destruct a; discriminate].
      injection Ea as <- _.
      destruct Hnext as (Hch & _ & _ & Hpend & Hnc).
      rewrite acknowledged_app, Hone, Hnc, Z.add_0_r, <- Hack, Hpend.
      reflexivity.
    + destruct a as [|ev a]; [discriminate|]. injection Ea as _ Ea.
      destruct a; discriminate.
  - rewrite sent_requests_app, Hreq, Hl, Hlog', map_app. f_equal.
    unfold arrival. destruct next; reflexivity.
  - intros v Hv. rewrite Hpr in Hv. rewrite Hl, Hlog'.
    destruct Hprom as [Hsame | [[Hdone Hnow] | [x Hrej]]].
    + rewrite Hsame in Hv. destruct (Hres v Hv) as (e & He1 & He2).
      exists e. split; [apply in_or_app; left; exact He1 | exact He2].
    + rewrite Hnow in Hv. injection Hv as <-.
      exists (cl_pending c).
      conjs; [apply in_or_app; left; exact Hin | exact Hdone | reflexivity].
    + congruence.
Qed.

Lemma data_step_log left c f :
  FL f -> f_data f = Some c -> FL (data_step env location dataSize left c f).
Proof.
  intros Hf Hc. unfold data_step.
  destruct (on_answer' c (f_state f)) as [st' next] eqn:E.
  apply (answer_log true c f st' _ next Hf Hc E); destruct next; reflexivity.
Qed.

Lemma end_step_log c f :
  FL f -> f_end f = Some c -> FL (end_step env location dataSize c f).
Proof.
  intros Hf Hc. unfold end_step.
  destruct (on_answer' c (f_state f)) as [st' next] eqn:E.
  apply (answer_log false c f st' _ next Hf Hc E); reflexivity.
Qed.

Lemma flight_log left fuel n f :
  FL f -> FL (flight env location dataSize left fuel n f).
Proof.
  apply flight_ind; intros g c; [apply data_step_log | apply end_step_log].
Qed.

Lemma flight_events left fuel n f :
  FL f -> FE f ->
  FE (flight env location dataSize left fuel n f).
Proof.
  intros Hl He.
  apply (flight_ind (fun f => FL f /\ FE f) left); try (split; assumption).
  - intros g c [Hg1 Hg2] Hc. split; [apply data_step_log; assumption|].
    unfold data_step.
    destruct (on_answer' c (f_state g)) as [st' next] eqn:E.
    apply (answer_events true c g st' _ next Hg1 Hg2 Hc E);
      destruct next; reflexivity.
  - intros g c [Hg1 Hg2] Hc. split; [apply end_step_log; assumption|].
    unfold end_step.
    destruct (on_answer' c (f_state g)) as [st' next] eqn:E.
    apply (answer_events false c g st' _ next Hg1 Hg2 Hc E); reflexivity.
Qed.

(** Every answer leaves one answer less to wait for. *)
Lemma step_awaited left n f f' :
  FL f ->
  step env location dataSize left n f = Some f' ->
  (awaited (f_data f') + awaited (f_end f')
   < awaited (f_data f) + awaited (f_end f))%nat.
Proof.
  intros [_ Hd He _] Hstep.
  assert (Hless : forall c st' next,
             waiting (log (f_state f)) c ->
             on_answer' c (f_state f) = (st', next) ->
             (awaited next < awaited (Some c))%nat).
  { intros c st' next (_ & Hput & Hchunk & Hup) E.
    destruct (on_answer_facts c _ _ _ E Hput Hchunk)
      as (_ & _ & _ & _ & Hnext).
    unfold awaited. destruct next as [c'|]; [|lia].
    destruct Hnext as (_ & Hcnt & H3 & _). lia. }
  destruct (step_cases _ _ _ _ Hstep) as [(c & Hc & ->) | (c & Hc & ->)].
  - unfold data_step.
    destruct (on_answer' c (f_state f)) as [st' next] eqn:E. simpl.
    destruct (Hd c Hc) as [Hw _]. pose proof (Hless c st' next Hw E).
    rewrite Hc. lia.
  - unfold end_step.
    destruct (on_answer' c (f_state f)) as [st' next] eqn:E. simpl.
    destruct (He c Hc) as [Hw _]. pose proof (Hless c st' next Hw E).
    rewrite Hc. lia.
Qed.

Lemma step_log left n f f' :
  FL f -> step env location dataSize left n f = Some f' -> FL f'.
Proof.
  intros Hf Hstep.
  destruct (step_cases _ _ _ _ Hstep) as [(c & Hc & ->) | (c & Hc & ->)];
    [apply data_step_log | apply end_step_log]; assumption.
Qed.

(** With as many steps as there are answers to wait for, no closure is
    left waiting. *)
Lemma flight_lands left fuel n f :
  FL f ->
  (awaited (f_data f) + awaited (f_end f) <= fuel)%nat ->
  let f' := flight env location dataSize left fuel n f in
  f_data f' = None /\ f_end f' = None.
Proof.
  revert n f. induction fuel as [|fuel IH]; intros n f Hf Hle; simpl.
  - destruct Hf as [_ Hd He _].
    destruct (f_data f) as [c|] eqn:Ed.
    { destruct (Hd c eq_refl) as [(_ & _ & _ & Hup) _].
      unfold awaited in Hle. lia. }
    destruct (f_end f) as [c|] eqn:Ee.
    { destruct (He c eq_refl) as [(_ & _ & _ & Hup) _].
      unfold awaited in Hle. lia. }
    split; reflexivity.
  - destruct (step env location dataSize left n f) as [f'|] eqn:Hstep.
    + apply IH; [eapply step_log; eassumption|].
      pose proof (step_awaited _ _ _ _ Hf Hstep). lia.
    + unfold step in Hstep.
      destruct (f_data f), (f_end f); try discriminate. split; reflexivity.
Qed.

(** More steps change nothing. *)
Lemma flight_fuel left fuel n f :
  FL f ->
  (awaited (f_data f) + awaited (f_end f) <= fuel)%nat ->
  flight env location dataSize left (S fuel) n f
  = flight env location dataSize left fuel n f.
Proof.
  revert n f. induction fuel as [|fuel IH]; intros n f Hf Hle.
  - destruct (flight_lands left 0 n f Hf Hle) as [Hd He]. simpl in Hd, He.
    simpl. unfold step. rewrite Hd, He. reflexivity.
  - simpl. destruct (step env location dataSize left n f) as [f'|] eqn:Hstep;
      [|reflexivity].
    change (flight env location dataSize left (S fuel) (S n) f'
            = flight env location dataSize left fuel (S n) f').
    apply IH; [eapply step_log; eassumption|].
    pose proof (step_awaited _ _ _ _ Hf Hstep). lia.
Qed.

End Invariants.

End FlightFacts.

(** ** The events of the stream *)

Section StreamRun.

Variable env : Env.
Variable location : option string.
Variable dataSize chunkSize : Z.

Local Notation put := (put_request location dataSize).
Local Notation emit_data' := (emit_data env location dataSize chunkSize).
Local Notation on_data' := (on_data env location dataSize chunkSize).
Local Notation on_end' := (on_end env location dataSize).
Local Notation in_turn' := (in_turn env location dataSize chunkSize).
Local Notation flight' := (flight env location dataSize).

Lemma emit_data_snoc front chunk st :
  emit_data' (front ++ [chunk]) st
  = let st1 := emit_data' front st in
    if flowing st1 then on_data' chunk st1 else st1.
Proof.
  revert st. induction front as [|a front IH]; intros st; simpl.
  - reflexivity.
  - destruct (flowing st) eqn:Hflow; [apply IH|].
    rewrite Hflow. reflexivity.
Qed.

Lemma rev_cons_inv {A} (l front : list A) (x : A) :
  rev l = x :: front -> l = rev front ++ [x].
Proof.
  intros H. rewrite <- (rev_involutive l), H. reflexivity.
Qed.

(** When the data handler sends nothing for the last fragment, or the end
    of the source is not buffered, the handlers run in turn. *)
Lemma streamTrans_in_turn mainData st :
  end_is_buffered env
  && last_fragment_uploads env location dataSize chunkSize mainData st
  = false ->
  streamTrans_events env location dataSize chunkSize mainData st
  = (in_turn' mainData st, in_turn_events (log (in_turn' mainData st))).
Proof.
  unfold streamTrans_events, last_fragment_uploads.
  destruct (end_is_buffered env); [|reflexivity]. simpl.
  destruct (rev mainData) as [|chunk front] eqn:Hrev.
  - intros _. assert (E : mainData = []).
    { rewrite <- (rev_involutive mainData), Hrev. reflexivity. }
    subst mainData. reflexivity.
  - apply rev_cons_inv in Hrev. subst mainData. cbv zeta.
    unfold in_turn. rewrite emit_data_snoc. cbv zeta.
    set (st1 := emit_data' (rev front) st).
    destruct (flowing st1) eqn:Hflow; simpl.
    + intros Hsmall. unfold last_data_and_end, on_data. cbv zeta.
      change (bufferData (set_bufferData (bufferData st1 ++ [chunk]) st1))
        with (bufferData st1 ++ [chunk]).
      rewrite Hsmall.
      change (flowing (set_bufferData (bufferData st1 ++ [chunk]) st1))
        with (flowing st1).
      rewrite Hflow. reflexivity.
    + intros _. rewrite Hflow. reflexivity.
Qed.

(** The two ways the events of the stream go. *)
Lemma streamTrans_events_cases mainData st :
  (end_is_buffered env
   && last_fragment_uploads env location dataSize chunkSize mainData st
   = false
   /\ streamTrans_events env location dataSize chunkSize mainData st
      = (in_turn' mainData st, in_turn_events (log (in_turn' mainData st))))
  \/ (end_is_buffered env
      && last_fragment_uploads env location dataSize chunkSize mainData st
      = true
      /\ exists front chunk,
          mainData = front ++ [chunk]
          /\ flowing (emit_data' front st) = true
          /\ (chunkSize
              <=? blen (Buffer_concat
                          (bufferData (emit_data' front st) ++ [chunk])))
             = true
          /\ streamTrans_events env location dataSize chunkSize mainData st
             = last_data_and_end env location dataSize chunkSize chunk
                                 (emit_data' front st)).
Proof.
  destruct (end_is_buffered env
            && last_fragment_uploads env location dataSize chunkSize
                                     mainData st) eqn:H.
  - right. split; [reflexivity|].
    apply andb_true_iff in H as [Hbuf Hlast].
    unfold last_fragment_uploads in Hlast. unfold streamTrans_events.
    rewrite Hbuf.
    destruct (rev mainData) as [|chunk front] eqn:Hrev; [discriminate|].
    apply rev_cons_inv in Hrev. cbv zeta in Hlast.
    apply andb_true_iff in Hlast as [Hflow Hfull].
    exists (rev front), chunk. cbv zeta. rewrite Hflow.
    conjs; try assumption; reflexivity.
  - left. split; [reflexivity | apply streamTrans_in_turn; exact H].
Qed.

(** Where the two closures start from, when the data handler sends a chunk
    for the last fragment: the request of the data handler, then that of
    the end handler, which carries the whole buffer from the same
    offset. *)
Lemma last_data_and_end_overlap chunk st :
  let temp := Buffer_concat (bufferData st ++ [chunk]) in
  let dataChunk := slice temp 0 (Some chunkSize) in
  let left := slice temp chunkSize None in
  let reqD := put (startByte st) dataChunk in
  let d := mkExchange reqD (fetch env (log st) reqD) in
  let reqE := put (startByte st) temp in
  let e := mkExchange reqE (fetch env (log st ++ [d]) reqE) in
  (chunkSize <=? blen temp) = true ->
  exists f0,
    last_data_and_end env location dataSize chunkSize chunk st
    = (f_state (flight' left 8 0 f0), f_events (flight' left 8 0 f0))
    /\ FlightLog (log st) (startByte st) dataChunk temp 8 f0
    /\ (awaited (f_data f0) + awaited (f_end f0) <= 8)%nat
    /\ f_events f0
       = in_turn_events (log st)
         ++ Sent reqD :: (if 0 <? blen temp then [Sent reqE] else [])
    /\ log (f_state f0)
       = log st ++ d :: (if 0 <? blen temp then [e] else [])
    /\ startByte (f_state f0) = startByte st
    /\ promise (f_state f0) = promise st.
Proof.
  intros temp dataChunk left reqD d reqE e Hfull.
  unfold last_data_and_end, first_attempt. cbv zeta.
  change (bufferData (set_bufferData (bufferData st ++ [chunk]) st))
    with (bufferData st ++ [chunk]).
  fold temp. rewrite Hfull. fold dataChunk left.
  unfold record, pause, set_bufferData.
  cbn [startByte log bufferData promise flowing].
  fold temp reqD. fold d. fold reqE.
  destruct (0 <? blen temp) eqn:Hsome.
  - eexists. split; [reflexivity|].
    cbn [f_data f_end f_state f_events cl_pending sent log startByte promise].
    fold e. split; [|split; [|split; [|split; [|split]]]].
    + constructor; cbn [f_data f_end f_state f_events log startByte].
      * exists [d; e]. rewrite <- app_assoc.
        conjs; [reflexivity| |simpl; lia].
        constructor; [split; [reflexivity | left; reflexivity]|].
        constructor; [split; [reflexivity | right; reflexivity]|constructor].
      * intros c [= <-]. split; [|reflexivity]. unfold waiting. simpl.
        conjs; try reflexivity; try lia.
        apply in_or_app. left. apply in_or_app. right. left. reflexivity.
      * intros c [= <-]. split; [|reflexivity]. unfold waiting. simpl.
        conjs; try reflexivity; try lia.
        apply in_or_app. right. left. reflexivity.
      * lia.
    + simpl. lia.
    + rewrite <- !app_assoc. reflexivity.
    + rewrite <- app_assoc. reflexivity.
    + reflexivity.
    + reflexivity.
  - eexists. split; [reflexivity|].
    cbn [f_data f_end f_state f_events cl_pending sent log startByte promise].
    split; [|split; [|split; [|split; [|split]]]].
    + constructor; cbn [f_data f_end f_state f_events log startByte].
      * exists [d]. conjs; [reflexivity| |simpl; lia].
        constructor; [split; [reflexivity | left; reflexivity]|constructor].
      * intros c [= <-]. split; [|reflexivity]. unfold waiting. simpl.
        conjs; try reflexivity; try lia.
        apply in_or_app. right. left. reflexivity.
      * discriminate.
      * lia.
    + simpl. lia.
    + reflexivity.
    + reflexivity.
    + reflexivity.
    + reflexivity.
Qed.

End StreamRun.

(** ** What the stream does to the offset and to the traffic *)

Section StreamTraffic.

Variable env : Env.
Variable location : option string.
Variable dataSize chunkSize : Z.

Local Notation emit_data' := (emit_data env location dataSize chunkSize).
Local Notation in_turn' := (in_turn env location dataSize chunkSize).
Local Notation streamTrans' := (streamTrans env location dataSize chunkSize).


Lemma on_end_puts st :
  exists puts,
    log (on_end env location dataSize st) = log st ++ puts
    /\ Forall (fun e => is_put e = true) puts
    /\ (List.length puts <= 4)%nat.
Proof.
  unfold on_end. cbv zeta. destruct (0 <? _).
  - destruct (upload_attempts env location dataSize
                (Buffer_concat (bufferData st)) st) as (seg & Hlog & Hseg & _).
    exists seg. split; [exact Hlog|]. split.
    + apply attempt_segment_puts. exact Hseg.
    + pose proof (upload_log_length env location dataSize
                    (Buffer_concat (bufferData st)) 3 0 st) as Hlen.
      rewrite Hlog, length_app in Hlen. lia.
  - exists []. rewrite app_nil_r. conjs; [reflexivity | constructor|].
    simpl. lia.
Qed.

Lemma emit_data_puts mainData st :
  exists puts,
    log (emit_data' mainData st) = log st ++ puts
    /\ Forall (fun e => is_put e = true) puts
    /\ (List.length puts <= 4 * List.length mainData)%nat.
Proof.
  destruct (emit_data_attempts env location dataSize chunkSize mainData st)
    as (segs & Hlog & Hsegs).
  exists (List.concat segs). split; [exact Hlog|]. split.
  - apply concat_segments_puts. exact Hsegs.
  - pose proof (emit_data_log_length env location dataSize chunkSize
                  mainData st) as Hlen.
    rewrite Hlog, length_app in Hlen. lia.
Qed.

Lemma in_turn_puts mainData st :
  exists puts,
    log (in_turn' mainData st) = log st ++ puts
    /\ Forall (fun e => is_put e = true) puts
    /\ (List.length puts <= 4 * (List.length mainData + 1))%nat.
Proof.
  unfold in_turn. cbv zeta.
  destruct (emit_data_puts mainData st) as (p1 & Hlog1 & Hp1 & Hlen1).
  destruct (flowing _).
  - destruct (on_end_puts (emit_data' mainData st))
      as (p2 & Hlog2 & Hp2 & Hlen2).
    exists (p1 ++ p2). rewrite Hlog2, Hlog1, app_assoc.
    conjs; [reflexivity | apply Forall_app; split; assumption|].
    rewrite length_app. lia.
  - exists p1. conjs; [assumption | assumption | lia].
Qed.


(** The stream adds chunk requests only, four at most for every fragment
    and four for the end of the source. *)
Lemma streamTrans_puts mainData st :
  exists puts,
    log (streamTrans' mainData st) = log st ++ puts
    /\ Forall (fun e => is_put e = true) puts
    /\ (List.length puts <= 4 * (List.length mainData + 1))%nat.
Proof.
  unfold streamTrans.
  destruct (streamTrans_events_cases env location dataSize chunkSize
              mainData st)
    as [[_ ->] | (_ & front & chunk & -> & Hflow & Hfull & ->)].
  - apply in_turn_puts.
  - destruct (last_data_and_end_overlap env location dataSize chunkSize
                chunk (emit_data' front st) Hfull)
      as (f0 & -> & HL & _).
    pose proof (flight_log env location dataSize _ _ _ _ _
                  (slice (Buffer_concat
                            (bufferData (emit_data' front st) ++ [chunk]))
                         chunkSize None)
                  8 0 f0 HL) as [(p2 & Hlog2 & Hp2 & Hlen2) _ _ _].
    destruct (emit_data_puts front st) as (p1 & Hlog1 & Hp1 & Hlen1).
    exists (p1 ++ p2). cbn [fst]. rewrite Hlog2, Hlog1, app_assoc.
    conjs; [reflexivity| |].
    + apply Forall_app. split; [exact Hp1|].
      eapply Forall_impl; [|exact Hp2]. intros x [Hx _]. exact Hx.
    + rewrite !length_app. cbn [List.length]. lia.
Qed.

(** A content that does not fill a chunk leaves the fragments in the
    buffer, and no handler sends anything before the end. *)
Lemma emit_data_small mainData st :
  blen (Buffer_concat (bufferData st)) + blen (Buffer_concat mainData)
  < chunkSize ->
  flowing st = true ->
  emit_data' mainData st = set_bufferData (bufferData st ++ mainData) st.
Proof.
  revert st. induction mainData as [|chunk rest IH]; intros st Hlt Hflow.
  - simpl. rewrite app_nil_r. destruct st; reflexivity.
  - simpl. rewrite Hflow.
    assert (Hcat : blen (Buffer_concat (bufferData st ++ [chunk]))
                   = blen (Buffer_concat (bufferData st)) + blen chunk).
    { unfold Buffer_concat. rewrite concat_app, blen_app. simpl.
      rewrite app_nil_r. reflexivity. }
    assert (Hrest : blen (Buffer_concat (chunk :: rest))
                    = blen chunk + blen (Buffer_concat rest)).
    { unfold Buffer_concat. simpl. apply blen_app. }
    pose proof (blen_nonneg (Buffer_concat rest)).
    assert (Hstep : on_data env location dataSize chunkSize chunk st
                    = set_bufferData (bufferData st ++ [chunk]) st).
    { unfold on_data. cbv zeta.
      change (bufferData (set_bufferData (bufferData st ++ [chunk]) st))
        with (bufferData st ++ [chunk]).
      assert (E : (chunkSize
                   <=? blen (Buffer_concat (bufferData st ++ [chunk])))
                  = false) by (apply Z.leb_gt; lia).
      rewrite E. reflexivity. }
    rewrite Hstep, IH.
    + unfold set_bufferData. simpl. rewrite <- app_assoc. reflexivity.
    + simpl. lia.
    + exact Hflow.
Qed.

Lemma small_content_in_turn mainData st :
  blen (Buffer_concat (bufferData st)) + blen (Buffer_concat mainData)
  < chunkSize ->
  flowing st = true ->
  last_fragment_uploads env location dataSize chunkSize mainData st = false.
Proof.
  intros Hlt Hflow. unfold last_fragment_uploads.
  destruct (rev mainData) as [|chunk front] eqn:Hrev; [reflexivity|].
  apply rev_cons_inv in Hrev. subst mainData. cbv zeta.
  assert (Hcat : forall l, blen (Buffer_concat (l ++ [chunk]))
                           = blen (Buffer_concat l) + blen chunk).
  { intros l. unfold Buffer_concat. rewrite concat_app, blen_app. simpl.
    rewrite app_nil_r. reflexivity. }
  rewrite Hcat in Hlt. pose proof (blen_nonneg chunk).
  rewrite emit_data_small by (assumption || lia).
  simpl. rewrite Hflow. simpl. apply Z.leb_gt.
  rewrite Hcat. unfold Buffer_concat in *. rewrite concat_app, blen_app. lia.
Qed.

End StreamTraffic.

(** ** The executor *)

Lemma retrieve_data_log env filePath fileUrl :
  Forall (fun e => is_put e = false)
         match retrieve_data env filePath fileUrl with
         | Source _ log1 => log1
         | Raised _ log1 => log1
         end.
Proof.
  unfold retrieve_data.
  destruct (negb (String.eqb filePath "") && String.eqb fileUrl "");
    [constructor|].
  destruct (String.eqb filePath "" && negb (String.eqb fileUrl ""));
    [|constructor].
  destruct (null_body_status _);
    (constructor; [reflexivity | constructor]).
Qed.

(** A call that does not open a session sends no chunk. *)
Lemma open_session_inl env object r :
  open_session env object = inl r ->
  resumableUpload env object = r
  /\ Forall (fun e => is_put e = false) (exchanges r).
Proof.
  intros H. split; [unfold resumableUpload; rewrite H; reflexivity|].
  revert H. unfold open_session. cbv zeta.
  destruct (_ || _); [intros [= <-]; constructor|].
  pose proof (retrieve_data_log env (default ""%string (Obj.filePath object))
                (default ""%string (Obj.fileUrl object))) as Hr.
  destruct (retrieve_data _ _ _) as [mainData log1|x log1];
    [|intros [= <-]; exact Hr].
  destruct (ok _); [discriminate|].
  destruct (JSON_parse _ _); intros [= <-]; simpl;
    (apply Forall_app; split; [exact Hr | constructor; [reflexivity | constructor]]).
Qed.

(** A call that opens a session: what the session is made of. *)
Lemma open_session_inr env object s :
  open_session env object = inr s ->
  Forall (fun e => is_put e = false) (s_log s)
  /\ Obj.dataSize object = Some (s_dataSize s)
  /\ s_chunkSize s = default 16777216 (Obj.chunkSize object)
  /\ (exists e, final (s_log s) = Some e
                /\ method (sent e) = POST
                /\ ok (received e) = true
                /\ s_location s = headers_get "location" (received e))
  /\ resumableUpload env object
     = mkRun (promise (upload_file env s)) None (log (upload_file env s)).
Proof.
  intros H. assert (Hrun := H).
  revert H. unfold open_session. cbv zeta.
  destruct (_ || _) eqn:Hvalid; [discriminate|].
  apply orb_false_iff in Hvalid as [_ Hsize].
  pose proof (retrieve_data_log env (default ""%string (Obj.filePath object))
                (default ""%string (Obj.fileUrl object))) as Hr.
  destruct (retrieve_data _ _ _) as [mainData log1|x log1]; [|discriminate].
  destruct (ok _) eqn:Hok; [|destruct (JSON_parse _ _); discriminate].
  intros [= <-]. simpl. conjs.
  - apply Forall_app. split; [exact Hr | constructor; [reflexivity | constructor]].
  - destruct (Obj.dataSize object) as [d|]; [reflexivity|].
    simpl in Hsize. discriminate.
  - reflexivity.
  - eexists. split; [apply final_snoc|]. simpl. conjs; try reflexivity.
    exact Hok.
  - unfold resumableUpload. rewrite Hrun. reflexivity.
Qed.

(** The exchanges up to the session request: the download of [fileUrl],
    if that is the source, and the session request, if the configuration
    is accepted and the download has a body. *)
Lemma open_session_traffic env object :
  let fileUrl := default ""%string (Obj.fileUrl object) in
  let req2 := post_request env (default ""%string (Obj.resumableUrl object))
                           (Obj.accessToken object)
                           (default (JObject []) (Obj.metadata object)) in
  exists gets posts,
    (gets = []
     \/ (gets = [mkExchange (get_request fileUrl)
                            (fetch env [] (get_request fileUrl))]
         /\ given (Obj.filePath object) = false
         /\ given (Obj.fileUrl object) = true))
    /\ (posts = [] \/ posts = [mkExchange req2 (fetch env gets req2)])
    /\ match open_session env object with
       | inl r => exchanges r = gets ++ posts
       | inr s => s_log s = gets ++ posts
                  /\ posts = [mkExchange req2 (fetch env gets req2)]
                  /\ ok (fetch env gets req2) = true
       end.
Proof.
  intros fileUrl req2. unfold open_session. cbv zeta.
  destruct (_ || _).
  { exists [], []. conjs; [left; reflexivity | left; reflexivity | reflexivity]. }
  unfold retrieve_data, given. fold fileUrl.
  destruct (String.eqb (default ""%string (Obj.filePath object)) "") eqn:Hp;
    destruct (String.eqb fileUrl "") eqn:Hu; simpl.
  - exists [], []. conjs; [left; reflexivity | left; reflexivity | reflexivity].
  - fold req2.
    set (g := mkExchange (get_request fileUrl)
                         (fetch env [] (get_request fileUrl))).
    destruct (null_body_status _).
    { exists [g], []. conjs; [right; conjs; reflexivity | left; reflexivity
                              | reflexivity]. }
    exists [g], [mkExchange req2 (fetch env [g] req2)].
    split; [right; conjs; reflexivity|]. split; [right; reflexivity|].
    fold req2.
    destruct (ok (fetch env [g] req2)) eqn:Hok.
    + simpl. conjs; reflexivity.
    + destruct (JSON_parse env _); reflexivity.
  - fold req2.
    exists [], [mkExchange req2 (fetch env [] req2)].
    split; [left; reflexivity|]. split; [right; reflexivity|].
    destruct (ok (fetch env [] req2)) eqn:Hok.
    + simpl. conjs; reflexivity.
    + destruct (JSON_parse env _); reflexivity.
  - exists [], []. conjs; [left; reflexivity | left; reflexivity | reflexivity].
Qed.


(** The same request answered with a JSON body: the promise is rejected
    with the status and the parsed body, and no chunk is sent. *)
Lemma session_error_with_json_body_rejects env object r :
  open_session env object = inl r ->
  thrown r = None ->
  exists e j,
    final (exchanges r) = Some e
    /\ method (sent e) = POST
    /\ ok (received e) = false
    /\ JSON_parse env (text (received e)) = Some j
    /\ settled r = Rejected (mkFailure (status (received e)) (JsonValue j))
    /\ Forall (fun x => is_put x = false) (exchanges r).
Proof.
  intros H Hthrown.
  destruct (open_session_inl _ _ _ H) as [_ Hno].
  revert H. unfold open_session. cbv zeta.
  destruct (_ || _); [intros [= <-]; discriminate|].
  destruct (retrieve_data _ _ _) as [mainData log1|x log1];
    [|intros [= <-]; discriminate].
  destruct (ok _) eqn:Hok; [discriminate|].
  destruct (JSON_parse _ _) as [j|] eqn:Hj; intros [= <-];
    [|discriminate].
  eexists. exists j. simpl. conjs; try apply final_snoc; try reflexivity;
    try assumption.
Qed.

(** ** Calls whose handlers run in turn *)

Lemma upload_file_in_turn_eq env s :
  overlaps env s = false ->
  upload_file_events env s
  = (upload_file_in_turn env s,
     in_turn_events (log (upload_file_in_turn env s))).
Proof.
  unfold overlaps, upload_file_events, upload_file_in_turn.
  apply streamTrans_in_turn.
Qed.

Lemma no_overlap_run env object s :
  open_session env object = inr s ->
  overlaps env s = false ->
  resumableUpload env object
  = mkRun (promise (upload_file_in_turn env s)) None
          (log (upload_file_in_turn env s))
  /\ events env object
     = in_turn_events (exchanges (resumableUpload env object)).
Proof.
  intros Hs Hno.
  destruct (open_session_inr _ _ _ Hs) as (_ & _ & _ & _ & Hrun).
  assert (E : upload_file env s = upload_file_in_turn env s).
  { unfold upload_file, streamTrans.
    change (streamTrans_events env (s_location s) (s_dataSize s)
              (s_chunkSize s) (s_mainData s) (initial (s_log s)))
      with (upload_file_events env s).
    rewrite (upload_file_in_turn_eq env s Hno). reflexivity. }
  rewrite Hrun, E. split; [reflexivity|].
  unfold events. rewrite Hs, (upload_file_in_turn_eq env s Hno). reflexivity.
Qed.

(** What holds of every call that opens a session and whose handlers run
    in turn. *)
Lemma run_facts env object s :
  open_session env object = inr s ->
  overlaps env s = false ->
  let run := resumableUpload env object in
  let content := Buffer_concat (s_mainData s) in
  Hist (chunk_exchange env (s_location s) (s_dataSize s) content)
       (exchanges run)
  /\ settled run = verdict env (exchanges run)
  /\ thrown run = None
  /\ (exists pend, accepted_bytes (exchanges run) ++ pend = content)
  /\ ((exists e, final (exchanges run) = Some e
                 /\ is_put e = true /\ continued e = false)
      \/ accepted_bytes (exchanges run) = content).
Proof.
  intros H Hno run content.
  destruct (open_session_inr _ _ _ H) as (Hnp & _).
  destruct (no_overlap_run _ _ _ H Hno) as [Hrun _].
  unfold run. rewrite Hrun. simpl.
  pose proof (initial_inv env (s_location s) (s_dataSize s) (s_chunkSize s)
                content (s_log s) (s_mainData s) Hnp eq_refl) as HI.
  destruct (in_turn_inv _ _ _ _ _ _ _ HI) as (Hh & _ & Hv & Hp & Hd).
  unfold upload_file_in_turn. conjs; try assumption. reflexivity.
Qed.

(** The exchanges of such a call in two parts: those up to the end of the
    source, and those of the end handler. *)
Lemma run_phases env object s :
  open_session env object = inr s ->
  overlaps env s = false ->
  let content := Buffer_concat (s_mainData s) in
  let st1 := emit_data env (s_location s) (s_dataSize s) (s_chunkSize s)
                       (s_mainData s) (initial (s_log s)) in
  Inv env (s_location s) (s_dataSize s) (s_chunkSize s) content [] st1
  /\ exists seg,
      exchanges (resumableUpload env object) = log st1 ++ seg
      /\ (seg = []
          \/ (flowing st1 = true
              /\ log (on_end env (s_location s) (s_dataSize s) st1)
                 = log st1 ++ seg
              /\ accepted_bytes (log st1) ++ Buffer_concat (bufferData st1)
                 = content
              /\ Forall (fun e => is_put e = true
                                  /\ chunk_of e
                                     = Buffer_concat (bufferData st1)
                                  /\ chunk_of e <> []) seg)).
Proof.
  intros Hs Hno content st1.
  destruct (open_session_inr _ _ _ Hs) as (Hnp & _).
  destruct (no_overlap_run _ _ _ Hs Hno) as [Hrun _].
  pose proof (initial_inv env (s_location s) (s_dataSize s) (s_chunkSize s)
                content (s_log s) (s_mainData s) Hnp eq_refl) as HI.
  apply emit_data_inv in HI. fold st1 in HI.
  split; [exact HI|].
  rewrite Hrun. simpl. unfold upload_file_in_turn, in_turn. cbv zeta.
  fold st1. destruct (flowing st1) eqn:Hflow.
  - destruct (on_end_inv _ _ _ _ _ _ HI Hflow)
      as (_ & _ & _ & Hall & (seg & Hlog & _ & Hseg) & _).
    exists seg. split; [exact Hlog|]. right. conjs; try assumption.
    reflexivity.
  - exists []. rewrite app_nil_r. split; [reflexivity | left; reflexivity].
Qed.

(** Nothing follows a chunk that was answered with 200, and a refused chunk
    is followed by the same request, if by anything. *)
Lemma successor env location dataSize content l pre e1 e2 post :
  Hist (chunk_exchange env location dataSize content) l ->
  l = pre ++ e1 :: e2 :: post ->
  is_put e1 = true ->
  continued e1 = true \/ (refused e1 = true /\ sent e2 = sent e1).
Proof.
  intros Hh E Hput.
  assert (E' : l = (pre ++ [e1]) ++ e2 :: post).
  { rewrite <- app_assoc. exact E. }
  destruct (Hh _ _ _ E') as [Hfollows _].
  apply Hfollows; [apply final_snoc | exact Hput].
Qed.

Lemma completed_is_last env location dataSize content l pre e post :
  Hist (chunk_exchange env location dataSize content) l ->
  l = pre ++ e :: post ->
  completed e = true ->
  post = [].
Proof.
  intros Hh E Hc. destruct post as [|e2 post]; [reflexivity|]. exfalso.
  unfold completed in Hc. apply andb_true_iff in Hc as [Hput H200].
  destruct (successor _ _ _ _ _ _ _ _ _ Hh E Hput) as [Hcont | [Href _]].
  - unfold continued in Hcont. rewrite Hput in Hcont. simpl in Hcont.
    apply Z.eqb_eq in H200, Hcont. congruence.
  - unfold refused in Href. rewrite Hput, H200 in Href. discriminate.
Qed.

Lemma no_completed_before env location dataSize content l pre e post :
  Hist (chunk_exchange env location dataSize content) l ->
  l = pre ++ e :: post ->
  Forall (fun x => completed x = false) pre.
Proof.
  intros Hh E. apply Forall_forall. intros x Hx.
  destruct (completed x) eqn:Hc; [exfalso | reflexivity].
  apply in_split in Hx as (p1 & p2 & ->).
  rewrite <- app_assoc in E. simpl in E.
  pose proof (completed_is_last _ _ _ _ _ _ _ _ Hh E Hc) as Hnil.
  destruct p2; discriminate.
Qed.

(** ** Calls whose end handler starts beside the data handler *)

Lemma verdict_resolved env l :
  resolved_by_200 env (verdict env l) l.
Proof.
  intros v Hv. unfold verdict in Hv.
  destruct (final l) as [e|] eqn:Hfin; [|discriminate].
  destruct (completed e) eqn:Hc; [|destruct (refused e); discriminate].
  injection Hv as <-. apply final_inv in Hfin as [pre ->].
  exists e. conjs; [apply in_or_app; right; left; reflexivity
                    | exact Hc | reflexivity].
Qed.

(** What such a call is made of: the fragments before the last, handled
    in turn, and then the two closures, the data handler's for the first
    [chunkSize] bytes of the buffer and the end handler's for the whole
    buffer. *)
Lemma overlap_run env object s :
  open_session env object = inr s ->
  overlaps env s = true ->
  exists front chunk f0,
    let content := Buffer_concat (s_mainData s) in
    let st1 := emit_data env (s_location s) (s_dataSize s) (s_chunkSize s)
                         front (initial (s_log s)) in
    let temp := Buffer_concat (bufferData st1 ++ [chunk]) in
    let dataChunk := slice temp 0 (Some (s_chunkSize s)) in
    let left := slice temp (s_chunkSize s) None in
    let reqD := put_request (s_location s) (s_dataSize s) (startByte st1)
                            dataChunk in
    let d := mkExchange reqD (fetch env (log st1) reqD) in
    let reqE := put_request (s_location s) (s_dataSize s) (startByte st1)
                            temp in
    let e := mkExchange reqE (fetch env (log st1 ++ [d]) reqE) in
    let f := flight env (s_location s) (s_dataSize s) left 8 0 f0 in
    s_mainData s = front ++ [chunk]
    /\ Inv env (s_location s) (s_dataSize s) (s_chunkSize s) content
           [chunk] st1
    /\ flowing st1 = true
    /\ s_chunkSize s <= blen temp
    /\ upload_file_events env s = (f_state f, f_events f)
    /\ log (f_state f0)
       = log st1 ++ d :: (if 0 <? blen temp then [e] else [])
    /\ FlightLog (log st1) (startByte st1) dataChunk temp 8 f
    /\ FlightEvents env (s_location s) (s_dataSize s) f
    /\ f_data f = None /\ f_end f = None.
Proof.
  intros Hs Hover.
  destruct (open_session_inr _ _ _ Hs) as (Hnp & _).
  unfold overlaps in Hover.
  destruct (streamTrans_events_cases env (s_location s) (s_dataSize s)
              (s_chunkSize s) (s_mainData s) (initial (s_log s)))
    as [[Hno _] | (_ & front & chunk & Hdata & Hflow & Hfull & Hev)];
    [congruence|].
  destruct (last_data_and_end_overlap env (s_location s) (s_dataSize s)
              (s_chunkSize s) chunk _ Hfull)
    as (f0 & Hlast & HL & Hfuel & Hev0 & Hlog0 & Hstart0 & Hprom0).
  exists front, chunk, f0. cbv zeta.
  set (st1 := emit_data env (s_location s) (s_dataSize s) (s_chunkSize s)
                        front (initial (s_log s))) in *.
  set (temp := Buffer_concat (bufferData st1 ++ [chunk])) in *.
  set (left := slice temp (s_chunkSize s) None) in *.
  pose proof (initial_inv env (s_location s) (s_dataSize s) (s_chunkSize s)
                (Buffer_concat (s_mainData s)) (s_log s) (s_mainData s)
                Hnp eq_refl) as HI.
  rewrite Hdata in HI at 2. apply emit_data_inv_app in HI. fold st1 in HI.
  assert (HE : FlightEvents env (s_location s) (s_dataSize s) f0).
  { destruct HI as [Hh Hst Hv Hf _ _ _].
    assert (Hack : acknowledged (f_events f0) = confirmed (log st1)).
    { rewrite Hev0, acknowledged_app, acknowledged_in_turn.
      destruct (0 <? blen temp);
        rewrite ?acknowledged_sent, acknowledged_nil; lia. }
    constructor.
    - rewrite Hstart0, Hack. exact Hst.
    - rewrite Hev0. apply well_sent_app.
      + eapply well_sent_in_turn. exact Hh.
      + intros a req b Ea Hm.
        assert (Hsame : acknowledged (in_turn_events (log st1) ++ a)
                        = startByte st1
                        /\ (req = put_request (s_location s) (s_dataSize s)
                                              (startByte st1)
                                              (slice temp 0
                                                     (Some (s_chunkSize s)))
                            \/ req = put_request (s_location s) (s_dataSize s)
                                                 (startByte st1) temp)).
        { rewrite acknowledged_app, acknowledged_in_turn, <- Hst.
          destruct a as [|ev a]; simpl in Ea.
          - injection Ea as <- _.
            split; [rewrite acknowledged_nil; lia | left; reflexivity].
          - injection Ea as <- Ea.
            destruct (0 <? blen temp); [|destruct a; discriminate].
            destruct a as [|ev a]; simpl in Ea; [|destruct a; discriminate].
            injection Ea as <- _.
            split; [rewrite acknowledged_sent, acknowledged_nil; lia
                   | right; reflexivity]. }
        destruct Hsame as [-> [-> | ->]]; reflexivity.
    - rewrite Hev0, Hlog0, sent_requests_app, sent_requests_in_turn, map_app.
      f_equal. destruct (0 <? blen temp); reflexivity.
    - rewrite Hprom0, Hv, (verdict_continues env _ (Hf Hflow)).
      intros v Hv'. discriminate. }
  conjs.
  - exact Hdata.
  - exact HI.
  - exact Hflow.
  - apply Z.leb_le. exact Hfull.
  - unfold upload_file_events. rewrite Hev. exact Hlast.
  - exact Hlog0.
  - apply flight_log. exact HL.
  - eapply flight_events; eassumption.
  - eapply flight_lands; eassumption.
  - eapply flight_lands; eassumption.
Qed.

(** ** Every call *)

(** The exchanges of a call: those of the session, which hold no chunk,
    then chunk requests only, four at most for every fragment and four for
    the end of the source. *)
Lemma run_split env object s :
  open_session env object = inr s ->
  exists puts,
    exchanges (resumableUpload env object) = s_log s ++ puts
    /\ Forall (fun e => is_put e = false) (s_log s)
    /\ Forall (fun e => is_put e = true) puts
    /\ (List.length puts <= 4 * (List.length (s_mainData s) + 1))%nat.
Proof.
  intros Hs.
  destruct (open_session_inr _ _ _ Hs) as (Hno & _ & _ & _ & Hrun).
  destruct (streamTrans_puts env (s_location s) (s_dataSize s)
              (s_chunkSize s) (s_mainData s) (initial (s_log s)))
    as (puts & Hlog & Hputs & Hlen).
  exists puts. rewrite Hrun. simpl. unfold upload_file.
  conjs; assumption.
Qed.

(** What comes after a chunk request is a chunk request. *)
Lemma after_put_is_put env object s pre e1 e2 post :
  open_session env object = inr s ->
  exchanges (resumableUpload env object) = pre ++ e1 :: e2 :: post ->
  is_put e1 = true ->
  is_put e2 = true.
Proof.
  intros Hs E Hput.
  destruct (run_split _ _ _ Hs) as (puts & Hrun & Hno & Hputs & _).
  rewrite Hrun in E.
  destruct (app_cons_split _ _ _ _ _ E) as [[p1 [E1 _]]|[p2 [_ E2]]].
  - exfalso. rewrite E1 in Hno. apply Forall_app in Hno as [_ Hno].
    inversion Hno; subst. congruence.
  - rewrite E2 in Hputs. apply Forall_app in Hputs as [_ Hputs].
    inversion Hputs as [|? ? _ Hrest]; subst.
    inversion Hrest; subst. assumption.
Qed.

(** The events of a call that opens a session: every chunk request is
    built from the bytes acknowledged when it is sent, the requests sent
    are those of the exchanges, in their order, and a promise that is
    resolved was resolved by a chunk answered 200. *)
Lemma run_events env object s :
  open_session env object = inr s ->
  well_sent (s_location s) (s_dataSize s) (events env object)
  /\ sent_requests (events env object)
     = map sent (exchanges (resumableUpload env object))
  /\ resolved_by_200 env (settled (resumableUpload env object))
                     (exchanges (resumableUpload env object)).
Proof.
  intros Hs.
  destruct (overlaps env s) eqn:Hover.
  - destruct (overlap_run _ _ _ Hs Hover)
      as (front & chunk & f0 & H). cbv zeta in H.
    destruct H as (_ & _ & _ & _ & Hev & _ & _ & [Hack Hsent Hreq Hres] & _).
    destruct (open_session_inr _ _ _ Hs) as (_ & _ & _ & _ & Hrun).
    assert (Hst : upload_file env s = fst (upload_file_events env s))
      by reflexivity.
    unfold events. rewrite Hs, Hrun, Hst, Hev. cbn [fst snd settled exchanges].
    conjs; assumption.
  - destruct (run_facts _ _ _ Hs Hover) as (Hh & Hv & _).
    destruct (no_overlap_run _ _ _ Hs Hover) as [_ Hev].
    rewrite Hev. conjs.
    + eapply well_sent_in_turn. exact Hh.
    + apply sent_requests_in_turn.
    + rewrite Hv. apply verdict_resolved.
Qed.

(** With a positive [chunkSize] no chunk request is empty. *)
Lemma put_chunks_nonempty env object s e :
  open_session env object = inr s ->
  0 < s_chunkSize s ->
  In e (exchanges (resumableUpload env object)) ->
  is_put e = true ->
  chunk_of e <> [].
Proof.
  intros Hs Hpos Hin Hput.
  assert (Hfull : forall b : Buffer, blen b = s_chunkSize s -> b <> []).
  { intros b Hb E. rewrite E in Hb. unfold blen in Hb. simpl in Hb. lia. }
  destruct (overlaps env s) eqn:Hover.
  - destruct (overlap_run _ _ _ Hs Hover)
      as (front & chunk & f0 & H). cbv zeta in H.
    destruct H as (_ & HI & _ & Hle & Hev & _
                   & [(puts & Hlog & Hputs & _) _ _ _] & _).
    destruct (open_session_inr _ _ _ Hs) as (_ & _ & _ & _ & Hrun).
    assert (Hst : upload_file env s = fst (upload_file_events env s))
      by reflexivity.
    rewrite Hrun, Hst, Hev in Hin. cbn [fst exchanges] in Hin.
    rewrite Hlog in Hin. apply in_app_or in Hin as [Hin | Hin].
    + pose proof (inv_size _ _ _ _ _ _ _ HI Hpos) as Hsz.
      rewrite Forall_forall in Hsz. apply Hfull. exact (Hsz e Hin Hput).
    + rewrite Forall_forall in Hputs.
      destruct (Hputs e Hin) as [_ [-> | ->]].
      * apply Hfull. apply slice_head_length; assumption.
      * intros E. rewrite E in Hle. unfold blen in Hle. simpl in Hle. lia.
  - destruct (run_phases _ _ _ Hs Hover) as (HI & seg & Hrun & Hseg).
    rewrite Hrun in Hin. apply in_app_or in Hin as [Hin | Hin].
    + pose proof (inv_size _ _ _ _ _ _ _ HI Hpos) as Hsz.
      rewrite Forall_forall in Hsz. apply Hfull. exact (Hsz e Hin Hput).
    + destruct Hseg as [-> | (_ & _ & _ & Hall)]; [contradiction|].
      rewrite Forall_forall in Hall. apply (Hall e Hin).
Qed.

(** Every chunk is a piece of the content, byte for byte. *)
Lemma put_chunks_are_pieces env object s x :
  open_session env object = inr s ->
  In x (exchanges (resumableUpload env object)) ->
  is_put x = true ->
  exists before after,
    before ++ chunk_of x ++ after = Buffer_concat (s_mainData s).
Proof.
  intros Hs Hin Hput.
  assert (Hce : forall l pre y post,
             Hist (chunk_exchange env (s_location s) (s_dataSize s)
                                  (Buffer_concat (s_mainData s))) l ->
             l = pre ++ y :: post -> is_put y = true ->
             exists before after,
               before ++ chunk_of y ++ after = Buffer_concat (s_mainData s)).
  { intros l pre y post Hh E Hy. destruct (Hh _ _ _ E) as [_ H].
    destruct (H Hy) as (_ & _ & rest & Hrest).
    exists (accepted_bytes pre), rest. exact Hrest. }
  destruct (overlaps env s) eqn:Hover.
  - destruct (overlap_run _ _ _ Hs Hover)
      as (front & chunk & f0 & H). cbv zeta in H.
    destruct H as (_ & HI & Hflow & _ & Hev & _
                   & [(puts & Hlog & Hputs & _) _ _ _] & _).
    destruct (open_session_inr _ _ _ Hs) as (_ & _ & _ & _ & Hrun).
    assert (Hst : upload_file env s = fst (upload_file_events env s))
      by reflexivity.
    rewrite Hrun, Hst, Hev in Hin. cbn [fst exchanges] in Hin.
    rewrite Hlog in Hin. apply in_app_or in Hin as [Hin | Hin].
    + apply in_split in Hin as (pre & post & E).
      exact (Hce _ _ _ _ (inv_hist _ _ _ _ _ _ _ HI) E Hput).
    + destruct HI as [_ _ _ _ _ (pend & Hc & Hpend) _].
      specialize (Hpend Hflow).
      set (st1 := emit_data env (s_location s) (s_dataSize s)
                            (s_chunkSize s) front (initial (s_log s))) in *.
      set (temp := Buffer_concat (bufferData st1 ++ [chunk])) in *.
      assert (Htemp : pend = temp).
      { rewrite Hpend. unfold temp, Buffer_concat. rewrite concat_app.
        reflexivity. }
      rewrite Htemp in Hc.
      rewrite Forall_forall in Hputs.
      destruct (Hputs x Hin) as [_ [-> | ->]].
      * exists (accepted_bytes (log st1)), (slice temp (s_chunkSize s) None).
        rewrite slice_split. exact Hc.
      * exists (accepted_bytes (log st1)), []. rewrite app_nil_r. exact Hc.
  - destruct (run_facts _ _ _ Hs Hover) as (Hh & _).
    apply in_split in Hin as (pre & post & E).
    exact (Hce _ _ _ _ Hh E Hput).
Qed.

(** A request among the events is the request of an exchange. *)
Lemma sent_among_exchanges env object s tr req rest :
  open_session env object = inr s ->
  events env object = tr ++ Sent req :: rest ->
  exists x, In x (exchanges (resumableUpload env object)) /\ sent x = req.
Proof.
  intros Hs E. destruct (run_events _ _ _ Hs) as (_ & Hreq & _).
  assert (Hin : In req (sent_requests (events env object))).
  { rewrite E, sent_requests_app. apply in_or_app. right. left. reflexivity. }
  rewrite Hreq in Hin. apply in_map_iff in Hin as (x & Hx & Hin).
  exists x. split; assumption.
Qed.

(** A content shorter than [chunkSize] is sent by the end handler
    alone. *)
Lemma short_content_in_turn env s :
  blen (Buffer_concat (s_mainData s)) < s_chunkSize s ->
  overlaps env s = false.
Proof.
  intros Hshort. unfold overlaps.
  rewrite small_content_in_turn; [apply andb_false_r | | reflexivity].
  simpl. exact Hshort.
Qed.

(** * The claims *)




(** C2 at a chunk that the last fragment completes, on a file that is
    buffered whole before the handlers are attached, with a server that
    answers 503 to every chunk request: the data handler and the end
    handler each send the chunk and retry it three times.  The chunk
    request [bytes 0-1/2] is sent eight times, not four, before and after
    each other's refusals; the promise is rejected with the answer to the
    fourth attempt of the data handler. *)
Theorem refused_last_chunk_is_sent_eight_times :
  let run := resumableUpload env_down (file_object 2 2) in
  let req := put_request (Some "https://upload.example/session"%string) 2 0
                         (bytes "ab") in
  let e := mkExchange req (reply 503 "down") in
  filter is_put (exchanges run) = [e; e; e; e; e; e; e; e]
  /\ headers req = [("Content-Range", "bytes 0-1/2")%string]
  /\ settled run = Rejected (mkFailure 503 (TextValue "down"))
  /\ skipn 2 (events env_down (file_object 2 2))
     = [Sent req; Sent req;
        Answered e; Sent req; Answered e; Sent req;
        Answered e; Sent req; Answered e; Sent req;
        Answered e; Sent req; Answered e; Sent req;
        Answered e; Answered e].
Proof. intros run req e. conjs; vm_compute; reflexivity. Qed.






(** C5 at a chunk that the last fragment completes, on a file that is
    buffered whole before the handlers are attached: the end handler sends
    the same bytes beside the data handler.  The first request is answered
    with 200 and resolves the promise; the request of the end handler is
    refused, and its retry is sent after the 200 has arrived. *)
Theorem request_follows_completion :
  let run := resumableUpload env_twice (file_object 2 2) in
  let req := put_request (Some "https://upload.example/session"%string) 2 0
                         (bytes "ab") in
  settled run = Resolved (JsonValue (JObject []))
  /\ filter is_put (exchanges run)
     = [mkExchange req (reply 200 "{}"); mkExchange req (reply 500 "busy");
        mkExchange req (reply 308 "")]
  /\ skipn 2 (events env_twice (file_object 2 2))
     = [Sent req; Sent req;
        Answered (mkExchange req (reply 200 "{}"));
        Answered (mkExchange req (reply 500 "busy"));
        Sent req;
        Answered (mkExchange req (reply 308 ""))].
Proof. intros run req. conjs; vm_compute; reflexivity. Qed.

(** C6 at a chunk that the last fragment completes, on a file that is
    buffered whole before the handlers are attached: a retry builds its
    Content-Range header from the [startByte] of the moment, which the
    other closure has advanced.  The chunk ab, sent at bytes 0-1/5 and
    refused twice, is sent the third time at bytes 5-6/5, after the 308
    that acknowledged the five bytes of the end handler. *)
Theorem retry_changes_content_range :
  let run := resumableUpload env_shift (file_object 5 2) in
  map (fun e => (headers (sent e), chunk_of e, status (received e)))
      (filter is_put (exchanges run))
  = [([("Content-Range", "bytes 0-1/5")%string], bytes "ab", 500);
     ([("Content-Range", "bytes 0-4/5")%string], bytes "abcde", 308);
     ([("Content-Range", "bytes 0-1/5")%string], bytes "ab", 500);
     ([("Content-Range", "bytes 5-6/5")%string], bytes "ab", 308)]
  /\ map (fun ev => match ev with
                    | Sent req => (true, payload req, 0)
                    | Answered e => (false, chunk_of e, status (received e))
                    end)
         (skipn 2 (events env_shift (file_object 5 2)))
     = [(true, bytes "ab", 0); (true, bytes "abcde", 0);
        (false, bytes "ab", 500); (true, bytes "ab", 0);
        (false, bytes "abcde", 308);
        (false, bytes "ab", 500); (true, bytes "ab", 0);
        (false, bytes "ab", 308)].
Proof. intros run. conjs; vm_compute; reflexivity. Qed.

(** C7 as stated fails: a negative [dataSize] passes the check, and the
    call goes on to the network. *)
Lemma negative_dataSize_is_accepted :
  misconfigured_with_negative_sizes (file_object (-1) 2)
  /\ ~ fails_before_network (resumableUpload env_open (file_object (-1) 2)).
Proof.
  split.
  - right. left. simpl. lia.
  - intros [_ H]. vm_compute in H. discriminate.
Qed.

(** C7, amended: when [resumableUrl] is missing or empty, or [dataSize] is
    missing or 0, or both or neither of [filePath] and [fileUrl] are given,
    the executor raises a configuration [Error] before any request is
    sent. *)
Theorem misconfiguration_fails_before_network env object :
  misconfigured object ->
  fails_before_network (resumableUpload env object)
  /\ (thrown (resumableUpload env object)
      = Some (Error "Please set resumableUrl and dataSize")
      \/ thrown (resumableUpload env object)
         = Some (Error "Please set filePath or fileUrl")).
Proof.
  unfold misconfigured, given, fails_before_network, resumableUpload,
    open_session.
  cbv zeta. intros H.
  destruct (String.eqb (default ""%string (Obj.resumableUrl object)) ""
            || (default 0 (Obj.dataSize object) =? 0)) eqn:Hfirst.
  - simpl. conjs; [eexists; reflexivity | reflexivity | left; reflexivity].
  - apply orb_false_iff in Hfirst as [Hurl Hsize].
    destruct H as [H | [H | H]].
    + rewrite Hurl in H. discriminate.
    + rewrite H in Hsize. discriminate.
    + unfold retrieve_data.
      destruct (String.eqb (default ""%string (Obj.filePath object)) "");
        destruct (String.eqb (default ""%string (Obj.fileUrl object)) "");
        simpl in H; try discriminate; simpl;
        (conjs; [eexists; reflexivity | reflexivity | right; reflexivity]).
Qed.

Lemma misconfiguration_fails_before_network_witness :
  misconfigured object_without_url
  /\ fails_before_network (resumableUpload env_open object_without_url).
Proof.
  assert (H : misconfigured object_without_url) by (left; reflexivity).
  split; [exact H|].
  exact (proj1 (misconfiguration_fails_before_network env_open
                  object_without_url H)).
Defined.

(** C8 at an answer whose body is not JSON: the session request is answered
    with 503 and a plain text, [res2.json()] throws inside the executor, and
    the promise is left pending instead of being rejected. *)
Theorem session_error_with_text_body_hangs :
  let run := resumableUpload env_unavailable (file_object 5 2) in
  settled run = Pending
  /\ thrown run = Some SyntaxError
  /\ exists e,
      exchanges run = [e]
      /\ method (sent e) = POST
      /\ status (received e) = 503
      /\ ok (received e) = false
      /\ text (received e) = "Service Unavailable"%string.
Proof.
  intros run. conjs; try reflexivity.
  eexists. conjs; reflexivity.
Qed.

(** C9: every chunk request is a PUT to the URL of the session's location
    header, with the one header Content-Range: bytes start-end/dataSize,
    where start is the number of bytes acknowledged with 308 by the answers
    that have arrived when the request is sent and end is
    start + length - 1, and with the chunk as its body, which is a piece of
    the source content, byte for byte; every request of the call is among
    the events; and when the end handler does not start while a chunk
    request of the data handler is unanswered, the chunk is the source
    content from offset start on. *)
Theorem chunk_request_shape env object s tr req rest :
  open_session env object = inr s ->
  events env object = tr ++ Sent req :: rest ->
  method req = PUT ->
  let start := acknowledged tr in
  let chunk := payload req in
  req = mkRequest PUT (s_location s)
                  [("Content-Range"%string,
                    "bytes " +++ js_string start +++ "-"
                    +++ js_string (start + blen chunk - 1) +++ "/"
                    +++ js_string (s_dataSize s))]
                  (BufferBody chunk)
  /\ Obj.dataSize object = Some (s_dataSize s)
  /\ (exists opened,
         final (s_log s) = Some opened
         /\ method (sent opened) = POST
         /\ s_location s = headers_get "location" (received opened))
  /\ (exists before after,
         before ++ chunk ++ after = Buffer_concat (s_mainData s))
  /\ sent_requests (events env object)
     = map sent (exchanges (resumableUpload env object))
  /\ (overlaps env s = false ->
      chunk = firstn (List.length chunk)
                     (skipn (Z.to_nat start) (Buffer_concat (s_mainData s)))).
Proof.
  intros Hs E Hput start chunk.
  destruct (run_events _ _ _ Hs) as (Hsent & Hreq & _).
  destruct (open_session_inr _ _ _ Hs) as (_ & Hsize & _ & Hopen & _).
  split; [exact (Hsent _ _ _ E Hput)|].
  split; [exact Hsize|].
  split.
  { destruct Hopen as (opened & Hfin & Hpost & _ & Hloc).
    exists opened. conjs; assumption. }
  split.
  { destruct (sent_among_exchanges _ _ _ _ _ _ Hs E) as (x & Hin & Hx).
    assert (Hpx : is_put x = true).
    { unfold is_put. rewrite Hx, Hput. reflexivity. }
    destruct (put_chunks_are_pieces _ _ _ x Hs Hin Hpx)
      as (before & after & Hpiece).
    exists before, after. unfold chunk. rewrite <- Hx. exact Hpiece. }
  split; [exact Hreq|].
  - intros Hno.
    destruct (run_facts _ _ _ Hs Hno) as (Hh & _).
    destruct (no_overlap_run _ _ _ Hs Hno) as [_ Hev].
    rewrite Hev in E.
    destruct (in_turn_events_split _ _ _ _ E) as (pre & x & post & El & Htr & Hx).
    destruct (Hh _ _ _ El) as [_ Hce].
    assert (Hpx : is_put x = true).
    { unfold is_put. rewrite <- Hx, Hput. reflexivity. }
    destruct (Hce Hpx) as (_ & _ & rest' & Hcontent).
    unfold start, chunk. rewrite Htr, acknowledged_in_turn, Hx.
    fold (chunk_of x). rewrite <- Hcontent.
    rewrite <- (accepted_confirmed pre).
    + apply middle_of_content.
    + eapply no_completed_before; eassumption.
Qed.

Lemma chunk_request_shape_witness :
  let evs := events env_done (file_object 6 2) in
  exists s req,
    open_session env_done (file_object 6 2) = inr s
    /\ nth_error evs 7 = Some (Sent req)
    /\ acknowledged (firstn 7 evs) = 4
    /\ req = mkRequest PUT (Some "https://upload.example/session"%string)
                       [("Content-Range", "bytes 4-5/6")%string]
                       (BufferBody (bytes "ef")).
Proof.
  intros evs.
  destruct (open_session env_done (file_object 6 2)) as [r|s] eqn:Hs;
    [vm_compute in Hs; discriminate|].
  set (req := put_request (Some "https://upload.example/session"%string) 6 4
                          (bytes "ef")).
  exists s, req.
  assert (E : events env_done (file_object 6 2)
              = firstn 7 evs ++ Sent req :: skipn 8 evs)
    by (vm_compute; reflexivity).
  assert (Hput : method req = PUT) by reflexivity.
  destruct (chunk_request_shape env_done (file_object 6 2) s _ req _ Hs E Hput)
    as (Hsent & _).
  conjs; [reflexivity | vm_compute; reflexivity | vm_compute; reflexivity |].
  rewrite Hsent. vm_compute in Hs. injection Hs as <-.
  vm_compute. reflexivity.
Defined.

(** C10 as stated fails: on a file of six bytes that is buffered whole
    before the handlers are attached, with chunks of two bytes, the end
    handler sends the last two bytes beside the data handler.  The request
    of the end handler, the last of the call, is answered with 308, and
    the promise is resolved all the same, by the 200 that answers the
    request of the data handler. *)
Lemma final_chunk_308_beside_completion :
  let run := resumableUpload env_done (file_object 6 2) in
  map (fun e => (chunk_of e, status (received e)))
      (filter is_put (exchanges run))
  = [(bytes "ab", 308); (bytes "cd", 308); (bytes "ef", 200);
     (bytes "ef", 308)]
  /\ settled run = Resolved (JsonValue (JObject []))
  /\ settled run <> Pending.
Proof.
  intros run.
  conjs; [vm_compute; reflexivity | vm_compute; reflexivity
          | vm_compute; discriminate].
Qed.

(** C10, amended: when the end handler does not start while a chunk
    request of the data handler is unanswered, and a request of the end
    handler is answered with 308, then no request follows it, the promise
    stays pending and nothing is thrown. *)
Theorem final_chunk_308_never_settles env object s pre e post :
  open_session env object = inr s ->
  overlaps env s = false ->
  let st1 := emit_data env (s_location s) (s_dataSize s) (s_chunkSize s)
                       (s_mainData s) (initial (s_log s)) in
  exchanges (resumableUpload env object) = log st1 ++ pre ++ e :: post ->
  status (received e) = 308 ->
  post = []
  /\ settled (resumableUpload env object) = Pending
  /\ thrown (resumableUpload env object) = None
  /\ flowing st1 = true
  /\ is_put e = true
  /\ chunk_of e = Buffer_concat (bufferData st1).
Proof.
  intros Hs Hno st1 E H308.
  destruct (run_facts _ _ _ Hs Hno) as (_ & Hv & Hthrown & _).
  destruct (run_phases _ _ _ Hs Hno) as (_ & seg & Hrun & Hseg).
  fold st1 in Hrun, Hseg.
  assert (Eseg : seg = pre ++ e :: post).
  { rewrite Hrun in E. apply app_inv_head in E. exact E. }
  destruct Hseg as [-> | (Hflow & Hlog & _ & Hall)];
    [destruct pre; discriminate|].
  assert (He : is_put e = true /\ chunk_of e = Buffer_concat (bufferData st1)).
  { rewrite Eseg in Hall. apply Forall_app in Hall as [_ Hall].
    inversion Hall; subst. tauto. }
  assert (Hpost : post = []).
  { unfold on_end in Hlog. cbv zeta in Hlog.
    destruct (0 <? _).
    - destruct (upload_attempts env (s_location s) (s_dataSize s)
                  (Buffer_concat (bufferData st1)) st1)
        as (seg' & Hlog' & (rq & fails & lst & Hshape & _ & Hfails & _) & _).
      rewrite Hlog in Hlog'. apply app_inv_head in Hlog'.
      rewrite <- Hlog', Eseg in Hshape. rewrite map_app in Hshape.
      simpl in Hshape.
      destruct post as [|x post]; [reflexivity|]. exfalso.
      assert (Hin : In e (map (mkExchange rq) fails)).
      { symmetry in Hshape.
        destruct (app_cons_split _ _ _ _ _ Hshape)
          as [[p1 [-> _]]|[p2 [_ E2]]].
        - apply in_elt.
        - destruct p2 as [|y p2]; [discriminate|].
          injection E2 as _ E2. destruct p2; discriminate. }
      apply in_map_iff in Hin as (r & <- & Hr).
      rewrite Forall_forall in Hfails. destruct (Hfails r Hr) as [_ N308].
      simpl in H308. contradiction.
    - rewrite <- (app_nil_r (log st1)) in Hlog at 1.
      apply app_inv_head in Hlog. rewrite <- Hlog in Eseg.
      destruct pre; discriminate. }
  subst post. destruct He as [Hput Hchunk].
  conjs; try assumption; try reflexivity.
  rewrite Hv, E, !app_assoc. unfold verdict. rewrite final_snoc.
  unfold completed, refused. rewrite H308. simpl.
  rewrite !andb_false_r. reflexivity.
Qed.

Lemma final_chunk_308_never_settles_witness :
  let env := toy_env [bytes "ab"; bytes "cd"; bytes "e"]
                     (session_reply 200 "") [] in
  let run := resumableUpload env (file_object 5 2) in
  exists e,
    final (exchanges run) = Some e
    /\ chunk_of e = bytes "e"
    /\ status (received e) = 308
    /\ settled run = Pending.
Proof.
  intros env run.
  destruct (open_session env (file_object 5 2)) as [r|s] eqn:Hs;
    [vm_compute in Hs; discriminate|].
  assert (Hs' := Hs). vm_compute in Hs'. injection Hs' as Hs'.
  set (e := nth 3 (exchanges run) no_exchange).
  exists e.
  assert (Hno : overlaps env s = false)
    by (rewrite <- Hs'; vm_compute; reflexivity).
  assert (E : exchanges run
              = log (emit_data env (s_location s) (s_dataSize s)
                               (s_chunkSize s) (s_mainData s)
                               (initial (s_log s)))
                ++ [] ++ e :: [])
    by (rewrite <- Hs'; vm_compute; reflexivity).
  assert (H308 : status (received e) = 308) by (vm_compute; reflexivity).
  destruct (final_chunk_308_never_settles env (file_object 5 2) s [] e []
              Hs Hno E H308) as (_ & Hp & _).
  conjs; [vm_compute; reflexivity | vm_compute; reflexivity
          | exact H308 | exact Hp].
Defined.

(** * Further properties of [resumableUpload] *)

(** ** The traffic of a call *)

(** X1: the requests of a call come in a fixed order: the GET of [fileUrl]
    (only when [fileUrl] alone is given), then the one session POST, then
    chunk PUTs only; and a chunk PUT is sent only after the session POST
    was answered with a 2xx status. *)
Theorem traffic_order env object :
  let fileUrl := default ""%string (Obj.fileUrl object) in
  let req2 := post_request env (default ""%string (Obj.resumableUrl object))
                           (Obj.accessToken object)
                           (default (JObject []) (Obj.metadata object)) in
  exists gets posts puts,
    exchanges (resumableUpload env object) = gets ++ posts ++ puts
    /\ (gets = []
        \/ (gets = [mkExchange (get_request fileUrl)
                               (fetch env [] (get_request fileUrl))]
            /\ given (Obj.filePath object) = false
            /\ given (Obj.fileUrl object) = true))
    /\ (posts = [] \/ posts = [mkExchange req2 (fetch env gets req2)])
    /\ Forall (fun e => is_put e = true) puts
    /\ (puts <> [] ->
        posts = [mkExchange req2 (fetch env gets req2)]
        /\ ok (fetch env gets req2) = true).
Proof.
  intros fileUrl req2.
  destruct (open_session_traffic env object) as (gets & posts & Hg & Hp & Hs).
  fold fileUrl req2 in Hg, Hp, Hs.
  destruct (open_session env object) as [r|s] eqn:Hopen.
  - destruct (open_session_inl _ _ _ Hopen) as [Hrun _].
    exists gets, posts, []. rewrite Hrun, app_nil_r.
    conjs; try assumption; [constructor | congruence].
  - destruct Hs as (Hlog & Hpost & Hok).
    destruct (run_split _ _ _ Hopen) as (puts & Hrun & _ & Hputs & _).
    exists gets, posts, puts.
    rewrite Hrun, Hlog, <- app_assoc.
    conjs; try assumption; try reflexivity.
    intros _. split; assumption.
Qed.

(** X2: every session request of a call is a POST to [resumableUrl] whose
    body is the JSON text of [metadata] (of the empty object when
    [metadata] is missing), with the header Content-Type: application/json
    and, only when [accessToken] is given and not empty, the header
    authorization: Bearer followed by the token. *)
Theorem session_request_shape env object e :
  In e (exchanges (resumableUpload env object)) ->
  method (sent e) = POST ->
  url (sent e) = Some (default ""%string (Obj.resumableUrl object))
  /\ body (sent e)
     = TextBody (JSON_stringify env
                   (default (JObject []) (Obj.metadata object)))
  /\ headers (sent e)
     = ("Content-Type", "application/json")%string
       :: match Obj.accessToken object with
          | Some token =>
              if String.eqb token ""
              then []
              else [("authorization", "Bearer " +++ token)%string]
          | None => []
          end.
Proof.
  intros Hin Hpost.
  destruct (open_session_traffic env object) as (gets & posts & Hg & Hp & Hs).
  cbv zeta in Hg, Hp, Hs.
  assert (Hlog : exists puts,
             exchanges (resumableUpload env object) = gets ++ posts ++ puts
             /\ Forall (fun x => is_put x = true) puts).
  { destruct (open_session env object) as [r|s] eqn:Hopen.
    - destruct (open_session_inl _ _ _ Hopen) as [Hrun _].
      exists []. rewrite Hrun, app_nil_r. split; [exact Hs | constructor].
    - destruct Hs as (Hlog & _).
      destruct (run_split _ _ _ Hopen) as (puts & Hrun & _ & Hputs & _).
      exists puts. rewrite Hrun, Hlog, <- app_assoc.
      split; [reflexivity | exact Hputs]. }
  destruct Hlog as (puts & Hrun & Hputs).
  rewrite Hrun in Hin. apply in_app_or in Hin as [Hin | Hin].
  { exfalso. destruct Hg as [-> | [-> _]]; simpl in Hin; [exact Hin|].
    destruct Hin as [<- | []]. discriminate. }
  apply in_app_or in Hin as [Hin | Hin].
  - destruct Hp as [-> | ->]; simpl in Hin; [contradiction|].
    destruct Hin as [<- | []]. simpl. conjs; try reflexivity.
    unfold session_headers, truthy. f_equal.
    destruct (Obj.accessToken object) as [token|]; [|reflexivity].
    simpl. destruct (String.eqb token ""); reflexivity.
  - exfalso. rewrite Forall_forall in Hputs. specialize (Hputs e Hin).
    unfold is_put in Hputs. rewrite Hpost in Hputs. discriminate.
Qed.

Lemma session_request_shape_witness :
  exists e,
    In e (exchanges (resumableUpload env_done (file_object 6 2)))
    /\ method (sent e) = POST
    /\ headers (sent e)
       = [("Content-Type", "application/json");
          ("authorization", "Bearer token")]%string
    /\ body (sent e) = TextBody "{}".
Proof.
  set (e := nth 0 (exchanges (resumableUpload env_done (file_object 6 2)))
                no_exchange).
  exists e.
  assert (Hin : In e (exchanges (resumableUpload env_done (file_object 6 2))))
    by (vm_compute; left; reflexivity).
  assert (Hpost : method (sent e) = POST) by (vm_compute; reflexivity).
  destruct (session_request_shape env_done (file_object 6 2) e Hin Hpost)
    as (_ & Hbody & Hheaders).
  conjs; [exact Hin | exact Hpost | rewrite Hheaders; reflexivity
          | rewrite Hbody; reflexivity].
Defined.

(** X15: the number of requests of a call is bounded by the number of
    fragments of the source: at most two requests when no session is
    opened, and otherwise the requests of the session plus at most four
    chunk requests for every fragment and four for the end of the
    source. *)
Theorem requests_are_bounded env object :
  match open_session env object with
  | inl _ =>
      (List.length (exchanges (resumableUpload env object)) <= 2)%nat
  | inr s =>
      (List.length (s_log s) <= 2)%nat
      /\ (List.length (exchanges (resumableUpload env object))
          <= List.length (s_log s)
             + 4 * (List.length (s_mainData s) + 1))%nat
  end.
Proof.
  destruct (open_session_traffic env object) as (gets & posts & Hg & Hp & Hs).
  cbv zeta in Hg, Hp, Hs.
  assert (Hlen : (List.length (gets ++ posts) <= 2)%nat).
  { rewrite length_app.
    destruct Hg as [-> | [-> _]]; destruct Hp as [-> | ->]; simpl; lia. }
  destruct (open_session env object) as [r|s] eqn:Hopen.
  - destruct (open_session_inl _ _ _ Hopen) as [Hrun _].
    rewrite Hrun, Hs. exact Hlen.
  - destruct Hs as (Hlog & _). rewrite <- Hlog in Hlen.
    split; [exact Hlen|].
    destruct (run_split _ _ _ Hopen) as (puts & Hrun & _ & _ & Hbound).
    rewrite Hrun, length_app. lia.
Qed.

(** ** How the promise is settled *)

(** X3: the promise is resolved only by a 200 answer to a chunk PUT: when
    it is resolved, a chunk PUT of the call was answered with 200, and the
    value is that answer's body, parsed or as text. *)
Theorem resolved_only_by_200 env object v :
  settled (resumableUpload env object) = Resolved v ->
  exists e,
    In e (exchanges (resumableUpload env object))
    /\ is_put e = true
    /\ status (received e) = 200
    /\ v = match JSON_parse env (text (received e)) with
           | Some j => JsonValue j
           | None => TextValue (text (received e))
           end.
Proof.
  intros Hres.
  destruct (open_session env object) as [r|s] eqn:Hopen.
  - exfalso. destruct (open_session_inl _ _ _ Hopen) as [Hrun _].
    rewrite Hrun in Hres. revert Hopen. unfold open_session. cbv zeta.
    destruct (_ || _); [intros [= <-]; discriminate|].
    destruct (retrieve_data _ _ _); [|intros [= <-]; discriminate].
    destruct (ok _); [discriminate|].
    destruct (JSON_parse _ _); intros [= <-]; discriminate.
  - destruct (run_events _ _ _ Hopen) as (_ & _ & Hby).
    destruct (Hby v Hres) as (e & Hin & Hc & Hv).
    unfold completed in Hc. apply andb_true_iff in Hc as [Hput H200].
    apply Z.eqb_eq in H200.
    exists e. conjs; assumption.
Qed.

Lemma resolved_only_by_200_witness :
  exists v e,
    settled (resumableUpload env_done (file_object 6 2)) = Resolved v
    /\ In e (exchanges (resumableUpload env_done (file_object 6 2)))
    /\ status (received e) = 200
    /\ v = JsonValue (JObject []).
Proof.
  assert (H : settled (resumableUpload env_done (file_object 6 2))
              = Resolved (JsonValue (JObject [])))
    by (vm_compute; reflexivity).
  destruct (resolved_only_by_200 env_done (file_object 6 2) _ H)
    as (e & Hin & _ & H200 & _).
  exists (JsonValue (JObject [])), e.
  conjs; [exact H | exact Hin | exact H200 | reflexivity].
Defined.

(** ** Retries *)

(** X6: a chunk that is refused up to three times and then acknowledged
    is not lost: after k <= 3 failing answers, a 308 advances [startByte]
    by the chunk length, resumes the stream and leaves the promise alone,
    and a 200 resolves the pending promise; the request was sent k + 1
    times. *)
Theorem retry_recovers env location dataSize dataChunk st k :
  (k <= 3)%nat ->
  let req := put_request location dataSize (startByte st) dataChunk in
  let rs := attempts env req (log st) k in
  let last := fetch env (log st ++ map (mkExchange req) rs) req in
  Forall failing rs ->
  (status last = 308 ->
   upload env location dataSize dataChunk 3 0 st
   = mkState (startByte st + blen dataChunk) (bufferData st) true (promise st)
             (log st ++ map (mkExchange req) (rs ++ [last])))
  /\ (status last = 200 ->
      promise st = Pending ->
      upload env location dataSize dataChunk 3 0 st
      = mkState (startByte st) (bufferData st) (flowing st)
                (Resolved (parse_or_text env (text last)))
                (log st ++ map (mkExchange req) (rs ++ [last]))).
Proof.
  intros Hk req rs last Hfail.
  pose proof (upload_skips_refusals env location dataSize dataChunk k 3 0 st
                eq_refl Hk Hfail) as Hskip.
  fold req rs in Hskip. rewrite Hskip.
  split.
  - intros H308.
    rewrite upload_step_308 by exact H308.
    simpl. rewrite map_app, app_assoc. reflexivity.
  - intros H200 Hpend.
    rewrite upload_step_200 by assumption.
    simpl. rewrite map_app, app_assoc. reflexivity.
Qed.

Lemma retry_recovers_witness :
  let st := pause (initial []) in
  let req := put_request (Some "u"%string) 4 0 (bytes "ab") in
  upload env_flaky (Some "u"%string) 4 (bytes "ab") 3 0 st
  = mkState 2 [] true Pending
            (map (mkExchange req)
                 [reply 500 "one"; reply 500 "two"; reply 500 "three";
                  reply 308 ""]).
Proof.
  intros st req.
  assert (Hk : (3 <= 3)%nat) by lia.
  assert (Hfail : Forall failing (attempts env_flaky req (log st) 3)).
  { repeat constructor; discriminate. }
  destruct (retry_recovers env_flaky (Some "u"%string) 4 (bytes "ab") st 3
              Hk Hfail) as [H308 _].
  rewrite H308; reflexivity.
Defined.

(** X17: a closure gives a chunk up at its fourth refusal: after three
    failing answers and a fourth, the request was sent four times, the
    pending promise is rejected with the status and the body text of the
    fourth answer, and the offset, the buffer and the mode of the stream
    are as before. *)
Theorem closure_rejects_at_fourth_refusal env location dataSize dataChunk
        st :
  let req := put_request location dataSize (startByte st) dataChunk in
  let rs := attempts env req (log st) 3 in
  let last := fetch env (log st ++ map (mkExchange req) rs) req in
  Forall failing rs ->
  failing last ->
  promise st = Pending ->
  upload env location dataSize dataChunk 3 0 st
  = mkState (startByte st) (bufferData st) (flowing st)
            (Rejected (mkFailure (status last) (TextValue (text last))))
            (log st ++ map (mkExchange req) (rs ++ [last])).
Proof.
  intros req rs last Hfail Hlast Hpend.
  pose proof (upload_skips_refusals env location dataSize dataChunk 3 3 0 st
                eq_refl (Nat.le_refl 3) Hfail) as Hskip.
  fold req rs in Hskip. rewrite Hskip.
  change (0 + 3)%nat with 3%nat.
  rewrite upload_step_refused by assumption.
  unfold with_log. cbn [startByte bufferData flowing promise log].
  rewrite map_app, app_assoc. reflexivity.
Qed.

Lemma closure_rejects_at_fourth_refusal_witness :
  let st := pause (initial []) in
  let req := put_request (Some "u"%string) 2 0 (bytes "ab") in
  upload env_down (Some "u"%string) 2 (bytes "ab") 3 0 st
  = mkState 0 [] false (Rejected (mkFailure 503 (TextValue "down")))
            (map (mkExchange req)
                 [reply 503 "down"; reply 503 "down"; reply 503 "down";
                  reply 503 "down"]).
Proof.
  intros st req.
  assert (Hfail : Forall failing (attempts env_down req (log st) 3)).
  { repeat constructor; discriminate. }
  assert (Hlast : failing (fetch env_down
                                 (log st ++ map (mkExchange req)
                                                (attempts env_down req
                                                          (log st) 3))
                                 req)).
  { split; discriminate. }
  rewrite (closure_rejects_at_fourth_refusal env_down (Some "u"%string) 2
             (bytes "ab") st Hfail Hlast eq_refl).
  reflexivity.
Defined.

(** ** Ranges *)

(** X7: when the end handler does not start while a chunk request of the
    data handler is unanswered, chunks are sent one after the other,
    without gap or overlap: a request that differs from the chunk request
    before it is sent only after that one was acknowledged with 308, and
    its range starts at the byte after the end of the acknowledged
    range. *)
Theorem next_chunk_follows_acknowledged env object s pre e1 e2 post :
  open_session env object = inr s ->
  overlaps env s = false ->
  exchanges (resumableUpload env object) = pre ++ e1 :: e2 :: post ->
  is_put e1 = true ->
  sent e2 <> sent e1 ->
  status (received e1) = 308
  /\ sent e1 = put_request (s_location s) (s_dataSize s) (confirmed pre)
                           (chunk_of e1)
  /\ sent e2 = put_request (s_location s) (s_dataSize s)
                           (confirmed pre + blen (chunk_of e1))
                           (chunk_of e2).
Proof.
  intros Hs Hno E Hput Hdiff.
  destruct (run_facts _ _ _ Hs Hno) as (Hh & _).
  pose proof (after_put_is_put _ _ _ _ _ _ _ Hs E Hput) as Hput2.
  destruct (successor _ _ _ _ _ _ _ _ _ Hh E Hput) as [Hc | [_ Hsame]];
    [|contradiction].
  assert (H308 : status (received e1) = 308).
  { unfold continued in Hc. rewrite Hput in Hc. apply Z.eqb_eq. exact Hc. }
  destruct (Hh _ _ _ E) as [_ Hce1].
  destruct (Hce1 Hput) as (Hsent1 & _).
  assert (E' : exchanges (resumableUpload env object)
               = (pre ++ [e1]) ++ e2 :: post).
  { rewrite <- app_assoc. exact E. }
  destruct (Hh _ _ _ E') as [_ Hce2].
  destruct (Hce2 Hput2) as (Hsent2 & _).
  rewrite confirmed_snoc, Hc in Hsent2.
  conjs; assumption.
Qed.

Lemma next_chunk_follows_acknowledged_witness :
  let run := resumableUpload env_protocol (file_object 5 2) in
  exists e1 e2,
    nth_error (exchanges run) 1 = Some e1
    /\ nth_error (exchanges run) 2 = Some e2
    /\ headers (sent e1) = [("Content-Range", "bytes 0-1/5")%string]
    /\ headers (sent e2) = [("Content-Range", "bytes 2-3/5")%string].
Proof.
  intros run.
  destruct (open_session env_protocol (file_object 5 2)) as [r|s] eqn:Hs;
    [vm_compute in Hs; discriminate|].
  assert (Hs' := Hs). vm_compute in Hs'. injection Hs' as Hs'.
  assert (Hno : overlaps env_protocol s = false)
    by (rewrite <- Hs'; vm_compute; reflexivity).
  set (e1 := nth 1 (exchanges run) no_exchange).
  set (e2 := nth 2 (exchanges run) no_exchange).
  exists e1, e2.
  assert (E : exchanges run
              = firstn 1 (exchanges run) ++ e1 :: e2 :: skipn 3 (exchanges run))
    by (vm_compute; reflexivity).
  assert (Hput : is_put e1 = true) by (vm_compute; reflexivity).
  assert (Hdiff : sent e2 <> sent e1) by (vm_compute; discriminate).
  destruct (next_chunk_follows_acknowledged env_protocol (file_object 5 2) s
              _ e1 e2 _ Hs Hno E Hput Hdiff) as (_ & H1 & H2).
  conjs; [vm_compute; reflexivity | vm_compute; reflexivity
          | rewrite H1, <- Hs'; vm_compute; reflexivity
          | rewrite H2, <- Hs'; vm_compute; reflexivity].
Defined.

(** X8: when the end handler does not start while a chunk request of the
    data handler is unanswered, the range of a chunk request lies inside
    the content that was read, whatever [dataSize] says: its start is not
    negative, and start plus chunk length does not pass the number of bytes
    of the source. *)
Theorem range_within_content env object s pre e post :
  open_session env object = inr s ->
  overlaps env s = false ->
  exchanges (resumableUpload env object) = pre ++ e :: post ->
  is_put e = true ->
  0 <= confirmed pre
  /\ confirmed pre + blen (chunk_of e)
     <= blen (Buffer_concat (s_mainData s)).
Proof.
  intros Hs Hno E Hput.
  destruct (run_facts _ _ _ Hs Hno) as (Hh & _).
  destruct (Hh _ _ _ E) as [_ Hce].
  destruct (Hce Hput) as (_ & _ & rest & Hcontent).
  rewrite <- (accepted_confirmed pre)
    by (eapply no_completed_before; eassumption).
  apply (f_equal blen) in Hcontent. rewrite !blen_app in Hcontent.
  pose proof (blen_nonneg (accepted_bytes pre)).
  pose proof (blen_nonneg rest). lia.
Qed.

Lemma range_within_content_witness :
  let env := toy_env [bytes "ab"; bytes "cd"; bytes "e"]
                     (session_reply 200 "") [] in
  let run := resumableUpload env (file_object (-1) 2) in
  exists pre e,
    exchanges run = pre ++ [e]
    /\ headers (sent e) = [("Content-Range", "bytes 4-4/-1")%string]
    /\ confirmed pre + blen (chunk_of e) <= 5.
Proof.
  intros env run.
  destruct (open_session env (file_object (-1) 2)) as [r|s] eqn:Hs;
    [vm_compute in Hs; discriminate|].
  assert (Hs' := Hs). vm_compute in Hs'. injection Hs' as Hs'.
  assert (Hno : overlaps env s = false)
    by (rewrite <- Hs'; vm_compute; reflexivity).
  set (e := nth 3 (exchanges run) no_exchange).
  exists (firstn 3 (exchanges run)), e.
  assert (E : exchanges run = firstn 3 (exchanges run) ++ e :: [])
    by (vm_compute; reflexivity).
  assert (Hput : is_put e = true) by (vm_compute; reflexivity).
  destruct (range_within_content env (file_object (-1) 2) s _ e _
              Hs Hno E Hput) as [_ Hle].
  rewrite <- Hs' in Hle.
  conjs; [exact E | vm_compute; reflexivity | exact Hle].
Defined.

(** ** The end handler beside the data handler *)



(** ** Small and empty contents, and chunk sizes that are not positive *)

(** X9: an empty source never settles the promise: with a positive
    [chunkSize] and a source that delivers no byte, no chunk is sent after
    the session request, nothing is thrown and the promise stays
    pending. *)
Theorem empty_source_never_settles env object s :
  open_session env object = inr s ->
  0 < s_chunkSize s ->
  Buffer_concat (s_mainData s) = [] ->
  exchanges (resumableUpload env object) = s_log s
  /\ settled (resumableUpload env object) = Pending
  /\ thrown (resumableUpload env object) = None.
Proof.
  intros Hs Hpos Hempty.
  assert (Hturn : overlaps env s = false).
  { apply short_content_in_turn. rewrite Hempty. exact Hpos. }
  destruct (run_facts _ _ _ Hs Hturn) as (Hh & Hv & Hthrown & _).
  destruct (run_split _ _ _ Hs) as (puts & Hrun & Hno & Hputs & _).
  assert (Hnil : puts = []).
  { destruct puts as [|e puts]; [reflexivity|]. exfalso.
    inversion Hputs as [|? ? Hput _]; subst.
    apply (put_chunks_nonempty env object s e Hs Hpos);
      [rewrite Hrun; apply in_elt | exact Hput |].
    destruct (Hh _ _ _ Hrun) as [_ Hce].
    destruct (Hce Hput) as (_ & _ & rest & Hcontent).
    rewrite Hempty in Hcontent.
    apply app_eq_nil in Hcontent as [_ Hcontent].
    apply app_eq_nil in Hcontent as [Hcontent _]. exact Hcontent. }
  subst puts. rewrite app_nil_r in Hrun.
  conjs; [exact Hrun | | exact Hthrown].
  rewrite Hv, Hrun. apply verdict_continues.
  intros e Hfin Hput. exfalso. apply final_inv in Hfin as [pre E].
  rewrite E in Hno. apply Forall_app in Hno as [_ Hno].
  inversion Hno; subst. congruence.
Qed.

Lemma empty_source_never_settles_witness :
  let env := toy_env [] (session_reply 200 "") [reply 200 "{}"] in
  settled (resumableUpload env (file_object 5 2)) = Pending
  /\ List.length (exchanges (resumableUpload env (file_object 5 2))) = 1%nat.
Proof.
  intros env.
  destruct (open_session env (file_object 5 2)) as [r|s] eqn:Hs;
    [vm_compute in Hs; discriminate|].
  assert (Hs' := Hs). vm_compute in Hs'. injection Hs' as Hs'.
  assert (Hpos : 0 < s_chunkSize s) by (rewrite <- Hs'; reflexivity).
  assert (Hempty : Buffer_concat (s_mainData s) = [])
    by (rewrite <- Hs'; reflexivity).
  destruct (empty_source_never_settles env (file_object 5 2) s Hs Hpos Hempty)
    as (Hrun & Hp & _).
  split; [exact Hp|]. rewrite Hrun, <- Hs'. reflexivity.
Defined.

(** X10: a content shorter than [chunkSize] is sent whole by the end
    handler: every chunk request of the call, retries included, carries
    the entire content with a range that starts at 0. *)
Theorem short_content_is_one_chunk env object s pre e post :
  open_session env object = inr s ->
  0 < s_chunkSize s ->
  blen (Buffer_concat (s_mainData s)) < s_chunkSize s ->
  exchanges (resumableUpload env object) = pre ++ e :: post ->
  is_put e = true ->
  sent e = put_request (s_location s) (s_dataSize s) 0
                       (Buffer_concat (s_mainData s)).
Proof.
  intros Hs Hpos Hshort E Hput.
  assert (Hturn : overlaps env s = false)
    by (apply short_content_in_turn; exact Hshort).
  set (content := Buffer_concat (s_mainData s)) in *.
  destruct (run_facts _ _ _ Hs Hturn) as (Hh & _). fold content in Hh.
  destruct (run_phases _ _ _ Hs Hturn) as (HI & seg & Hrun & Hseg).
  fold content in HI, Hseg.
  set (st1 := emit_data env (s_location s) (s_dataSize s) (s_chunkSize s)
                        (s_mainData s) (initial (s_log s))) in *.
  destruct (Hh _ _ _ E) as [_ Hce].
  destruct (Hce Hput) as (Hsent & _ & rest & Hcontent).
  assert (Hfits : forall p x q,
             exchanges (resumableUpload env object) = p ++ x :: q ->
             is_put x = true -> blen (chunk_of x) < s_chunkSize s).
  { intros p x q Ex Hx. destruct (Hh _ _ _ Ex) as [_ Hcx].
    destruct (Hcx Hx) as (_ & _ & rx & Hrx).
    apply (f_equal blen) in Hrx. rewrite !blen_app in Hrx.
    pose proof (blen_nonneg (accepted_bytes p)).
    pose proof (blen_nonneg rx). lia. }
  assert (Hnoput : Forall (fun x => is_put x = false) (log st1)).
  { apply Forall_forall. intros x Hx.
    destruct (is_put x) eqn:Hpx; [exfalso | reflexivity].
    pose proof (inv_size _ _ _ _ _ _ _ HI Hpos) as Hsz.
    rewrite Forall_forall in Hsz. specialize (Hsz x Hx Hpx).
    apply in_split in Hx as (p1 & p2 & Ex).
    assert (Ex' : exchanges (resumableUpload env object)
                  = p1 ++ x :: (p2 ++ seg)).
    { rewrite Hrun, Ex, <- app_assoc. reflexivity. }
    pose proof (Hfits _ _ _ Ex' Hpx). lia. }
  assert (Hacc1 : accepted_bytes (log st1) = []).
  { unfold accepted_bytes. rewrite filter_none; [reflexivity|].
    eapply Forall_impl; [|exact Hnoput]. intros x Hx.
    destruct (accepted x) eqn:Ha; [|reflexivity].
    apply accepted_is_put in Ha. congruence. }
  assert (Hchunk : chunk_of e = content).
  { rewrite Hrun in E.
    destruct (app_cons_split _ _ _ _ _ E) as [[p1 [E1 _]]|[p2 [_ E2]]].
    - exfalso. rewrite E1 in Hnoput. apply Forall_app in Hnoput as [_ Hn].
      inversion Hn; subst. congruence.
    - destruct Hseg as [-> | (_ & _ & Hall & Hfor)];
        [destruct p2; discriminate|].
      rewrite E2 in Hfor. apply Forall_app in Hfor as [_ Hfor].
      inversion Hfor as [|? ? (_ & Hc & _) _]; subst.
      rewrite Hc. rewrite Hacc1 in Hall. exact Hall. }
  assert (Hzero : confirmed pre = 0).
  { rewrite <- (accepted_confirmed pre)
      by (eapply no_completed_before; eassumption).
    apply (f_equal blen) in Hcontent. rewrite !blen_app, Hchunk in Hcontent.
    pose proof (blen_nonneg (accepted_bytes pre)).
    pose proof (blen_nonneg rest). lia. }
  rewrite Hsent, Hzero, Hchunk. reflexivity.
Qed.

Lemma short_content_is_one_chunk_witness :
  let env := toy_env [bytes "ab"; bytes "c"] (session_reply 200 "")
                     [reply 500 "busy"; reply 200 "{}"] in
  let run := resumableUpload env (file_object 3 8) in
  exists e1 e2,
    exchanges run = firstn 1 (exchanges run) ++ [e1; e2]
    /\ sent e1 = sent e2
    /\ body (sent e2) = BufferBody (bytes "abc")
    /\ headers (sent e2) = [("Content-Range", "bytes 0-2/3")%string].
Proof.
  intros env run.
  destruct (open_session env (file_object 3 8)) as [r|s] eqn:Hs;
    [vm_compute in Hs; discriminate|].
  assert (Hs' := Hs). vm_compute in Hs'. injection Hs' as Hs'.
  set (e1 := nth 1 (exchanges run) no_exchange).
  set (e2 := nth 2 (exchanges run) no_exchange).
  exists e1, e2.
  assert (Hpos : 0 < s_chunkSize s) by (rewrite <- Hs'; reflexivity).
  assert (Hshort : blen (Buffer_concat (s_mainData s)) < s_chunkSize s)
    by (rewrite <- Hs'; reflexivity).
  assert (E1 : exchanges run = firstn 1 (exchanges run) ++ e1 :: [e2])
    by (vm_compute; reflexivity).
  assert (E2 : exchanges run = firstn 2 (exchanges run) ++ e2 :: [])
    by (vm_compute; reflexivity).
  assert (H1 := short_content_is_one_chunk env (file_object 3 8) s _ e1 _
                  Hs Hpos Hshort E1 eq_refl).
  assert (H2 := short_content_is_one_chunk env (file_object 3 8) s _ e2 _
                  Hs Hpos Hshort E2 eq_refl).
  conjs; [exact E1 | congruence
          | rewrite H2, <- Hs'; reflexivity
          | rewrite H2, <- Hs'; reflexivity].
Defined.



(** ** Servers that follow the protocol *)




(** ** The chunks of a content *)









(** ** The source of the bytes *)


